(** * Relay pool of nostr-sdk: a shallow embedding of
      crates/nostr-sdk/src/relay/pool.rs

    The seen-event cache ([RelayPoolTask::add_event], [add_events],
    [clear_already_seen_events]), the inbound aggregator loop
    ([RelayPoolTask::run], [handle_relay_message]) and the outbound
    fan-out operations of [RelayPool] are modelled as pure functions
    over explicit state.  Code of the [nostr] crate and of the relay
    driver ([Relay]) is not part of this file: its functions are taken
    as parameters (records [EventCodec] and [RelayDriver]), so every
    theorem holds for every implementation of them. *)

From Stdlib Require Import String List Bool Arith Lia NArith.
Import ListNotations.
Open Scope list_scope.

(* ------------------------------------------------------------------ *)
(** ** Basic data *)

(** [EventId]: a 32-byte hash, compared by equality only. *)
Definition EventId := N.
Definition Url := string.
Definition Duration := nat.

(** [std::collections::VecDeque<EventId>], front = head of the list. *)
Definition Deque := list EventId.

(** [VecDeque::contains] *)
Definition contains (event_id : EventId) (events : Deque) : bool :=
  existsb (N.eqb event_id) events.

(** [VecDeque::pop_front], result discarded: on an empty deque it
    returns [None] and leaves the deque empty. *)
Definition pop_front (events : Deque) : Deque :=
  match events with
  | [] => []
  | _ :: rest => rest
  end.

(** [VecDeque::push_back] *)
Definition push_back (events : Deque) (event_id : EventId) : Deque :=
  events ++ [event_id].

(** The eviction loop shared by [add_event] and [add_events]:
    [while events.len() >= self.max_seen_events { events.pop_front(); }]
    run for at most [fuel] tests of its condition; [None] means that the
    loop has not left within the budget. *)
Fixpoint evict_loop (fuel max_seen_events : nat) (events : Deque)
  : option Deque :=
  match fuel with
  | O => None
  | S fuel' =>
      if max_seen_events <=? length events
      then evict_loop fuel' max_seen_events (pop_front events)
      else Some events
  end.

(** The loop as run by the code.  Each iteration shortens a non-empty
    deque, so after [length events] iterations the deque is empty and
    [pop_front] is the identity: if the condition still holds at the
    [S (length events)]-th test it holds forever
    ([evict_loop_diverges] below).  [None] is therefore exactly
    non-termination of the Rust loop. *)
Definition evict (max_seen_events : nat) (events : Deque) : option Deque :=
  evict_loop (S (length events)) max_seen_events events.

(** [RelayPoolTask::add_event]; [None] = the call does not return. *)
Definition add_event (max_seen_events : nat) (events : Deque)
  (event_id : EventId) : option (bool * Deque) :=
  if contains event_id events then Some (false, events)
  else
    match evict max_seen_events events with
    | Some events' => Some (true, push_back events' event_id)
    | None => None
    end.

(** The [for event_id in ids] loop of [RelayPoolTask::add_events]. *)
Fixpoint add_events_loop (max_seen_events : nat) (events : Deque)
  (ids : list EventId) : option Deque :=
  match ids with
  | [] => Some events
  | event_id :: rest =>
      if negb (contains event_id events) then
        match evict max_seen_events events with
        | Some events' =>
            add_events_loop max_seen_events (push_back events' event_id) rest
        | None => None
        end
      else add_events_loop max_seen_events events rest
  end.

(** [RelayPoolTask::add_events] *)
Definition add_events (max_seen_events : nat) (events : Deque)
  (ids : list EventId) : option Deque :=
  match ids with
  | [] => Some events
  | _ :: _ => add_events_loop max_seen_events events ids
  end.

(** [RelayPoolTask::clear_already_seen_events] *)
Definition clear_already_seen_events (events : Deque) : Deque := [].

(** Spec side of the batch admission: admit the IDs one at a time with
    [add_event], in order, dropping the verdicts. *)
Definition add_one_at_a_time (max_seen_events : nat) (events : Deque)
  (ids : list EventId) : option Deque :=
  fold_left
    (fun acc event_id =>
       match acc with
       | Some q => option_map snd (add_event max_seen_events q event_id)
       | None => None
       end)
    ids (Some events).

(** Cache invariant of the spec: no duplicate IDs, and at most
    [max_seen_events] of them when the capacity is positive. *)
Definition cache_inv (max_seen_events : nat) (events : Deque) : Prop :=
  NoDup events /\ (1 <= max_seen_events -> length events <= max_seen_events).

(* ------------------------------------------------------------------ *)
(** ** Results and errors *)

(** [Result<A, E>] *)
Inductive result (A E : Type) : Type :=
| Ok (a : A)
| Err (e : E).
Arguments Ok {A E} a.
Arguments Err {A E} e.

(** The [?] operator. *)
Notation "'let?' x ':=' m 'in' k" :=
  (match m with Ok x => k | Err e => Err e end)
  (at level 200, x name, right associativity).

Definition is_ok {A E} (r : result A E) : bool :=
  match r with Ok _ => true | Err _ => false end.

(** [relay::pool::Error].  The errors wrapped from other crates carry
    their message only. *)
Module Error.
Inductive t : Type :=
| Url (msg : string)
| Relay (msg : string)
| Event (msg : string)
| PartialEvent (msg : string)
| MessageHandler (msg : string)
| Thread (msg : string)
| NoRelays
| MsgNotSent
| MsgsNotSent
| EventNotPublished (event_id : EventId)
| EventsNotPublished
| RelayNotFound
| EventExpired.
End Error.

(* ------------------------------------------------------------------ *)
(** ** Events and relay messages (types of the [nostr] crate) *)

Module Event.
Record t : Type := mk {
  id : EventId;
  pubkey : string;
  created_at : N;
  kind : N;
  tags : list (list string);
  content : string;
  sig : string
}.
End Event.

(** [PartialEvent]: the fields [id], [pubkey] and [sig]. *)
Record PartialEvent : Type := {
  partial_id : EventId;
  partial_pubkey : string;
  partial_sig : string
}.

(** [MissingPartialEvent]: the remaining fields. *)
Record MissingPartialEvent : Type := {
  missing_created_at : N;
  missing_kind : N;
  missing_tags : list (list string);
  missing_content : string
}.

(** [PartialEvent::merge] *)
Definition merge (partial : PartialEvent) (missing : MissingPartialEvent)
  : Event.t :=
  Event.mk (partial_id partial) (partial_pubkey partial)
    (missing_created_at missing) (missing_kind missing)
    (missing_tags missing) (missing_content missing) (partial_sig partial).

(** [RawRelayMessage]: the event is kept as its JSON text
    ([event.to_string()] is all the pool uses of it). *)
Module RawRelayMessage.
Inductive t : Type :=
| Event (subscription_id : string) (event : string)
| Ok (event_id : string) (status : bool) (message : string)
| EndOfStoredEvents (subscription_id : string)
| Notice (message : string).
End RawRelayMessage.

Module RelayMessage.
Inductive t : Type :=
| Event (subscription_id : string) (event : Event.t)
| Ok (event_id : EventId) (status : bool) (message : string)
| EndOfStoredEvents (subscription_id : string)
| Notice (message : string).
End RelayMessage.

(** The functions of the [nostr] crate that [handle_relay_message] calls:
    JSON decoding, Schnorr verification, expiration (against the clock)
    and ID re-derivation, each with its error already converted into
    [Error.t] as the [?] operator does. *)
Record EventCodec : Type := {
  partial_event_from_json : string -> result PartialEvent Error.t;
  verify_signature : PartialEvent -> result unit Error.t;
  missing_partial_event_from_json :
    string -> result MissingPartialEvent Error.t;
  is_expired : Event.t -> bool;
  verify_id : Event.t -> result unit Error.t;
  relay_message_try_from : RawRelayMessage.t -> result RelayMessage.t Error.t
}.

(* ------------------------------------------------------------------ *)
(** ** Inbound aggregator ([RelayPoolTask]) *)

(** The relay status value is forwarded untouched; its content does not
    matter to the pool. *)
Definition RelayStatus := string.

Module RelayPoolMessage.
Inductive t : Type :=
| ReceivedMsg (relay_url : Url) (msg : RawRelayMessage.t)
| BatchEvent (ids : list EventId)
| RelayStatus (url : Url) (status : RelayStatus)
| Stop
| Shutdown.
End RelayPoolMessage.

Module RelayPoolNotification.
Inductive t : Type :=
| Event (url : Url) (event : Event.t)
| Message (url : Url) (msg : RelayMessage.t)
| RelayStatus (url : Url) (status : RelayStatus)
| Stop
| Shutdown.
End RelayPoolNotification.

(** The shared state of the task: the [running] flag, whether the
    receiving end of the channel has been closed, and the seen-event
    cache [events]. *)
Record TaskState : Type := {
  running : bool;
  receiver_closed : bool;
  events : Deque
}.

Definition set_events (st : TaskState) (q : Deque) : TaskState :=
  {| running := running st; receiver_closed := receiver_closed st;
     events := q |}.

(** Whether the loop body ends in [break]. *)
Inductive Control : Type := Continue | Break.

Section Aggregator.
Variable codec : EventCodec.
Variable max_seen_events : nat.

(** [RelayPoolTask::handle_relay_message] *)
Definition handle_relay_message (msg : RawRelayMessage.t)
  : result RelayMessage.t Error.t :=
  match msg with
  | RawRelayMessage.Event subscription_id event =>
      let? partial_event := partial_event_from_json codec event in
      let? _ := verify_signature codec partial_event in
      let? missing := missing_partial_event_from_json codec event in
      let event := merge partial_event missing in
      if is_expired codec event then Err Error.EventExpired
      else
        let? _ := verify_id codec event in
        Ok (RelayMessage.Event subscription_id event)
  | m => relay_message_try_from codec m
  end.

(** One iteration of the [while let Some(msg) = receiver.recv().await]
    loop of [RelayPoolTask::run]: new task state, notifications sent on
    the broadcast channel (in order), and whether the loop breaks.
    [None]: the iteration does not return (the eviction loop at
    capacity 0). *)
Definition step (st : TaskState) (msg : RelayPoolMessage.t)
  : option (TaskState * list RelayPoolNotification.t * Control) :=
  match msg with
  | RelayPoolMessage.ReceivedMsg relay_url msg =>
      match handle_relay_message msg with
      | Ok msg =>
          let message := RelayPoolNotification.Message relay_url msg in
          match msg with
          | RelayMessage.Event _ event =>
              match add_event max_seen_events (events st) (Event.id event) with
              | Some (true, q) =>
                  Some (set_events st q,
                        [message; RelayPoolNotification.Event relay_url event],
                        Continue)
              | Some (false, q) => Some (set_events st q, [message], Continue)
              | None => None
              end
          | RelayMessage.Notice _ => Some (st, [message], Continue)
          | _ => Some (st, [message], Continue)
          end
      | Err _ => Some (st, [], Continue)
      end
  | RelayPoolMessage.BatchEvent ids =>
      match add_events max_seen_events (events st) ids with
      | Some q => Some (set_events st q, [], Continue)
      | None => None
      end
  | RelayPoolMessage.RelayStatus url status =>
      Some (st, [RelayPoolNotification.RelayStatus url status], Continue)
  | RelayPoolMessage.Stop =>
      Some ({| running := false; receiver_closed := receiver_closed st;
               events := events st |},
            [RelayPoolNotification.Stop], Break)
  | RelayPoolMessage.Shutdown =>
      Some ({| running := false; receiver_closed := true;
               events := events st |},
            [RelayPoolNotification.Shutdown], Break)
  end.

(** The loop over the messages found in the channel, in channel order:
    final state, all notifications, and the messages left in the channel
    when the loop breaks. *)
Fixpoint run_msgs (st : TaskState) (msgs : list RelayPoolMessage.t)
  : option (TaskState * list RelayPoolNotification.t
            * list RelayPoolMessage.t) :=
  match msgs with
  | [] => Some (st, [], [])
  | msg :: rest =>
      match step st msg with
      | None => None
      | Some (st', ns, Break) => Some (st', ns, rest)
      | Some (st', ns, Continue) =>
          match run_msgs st' rest with
          | None => None
          | Some (st'', ns', rem) => Some (st'', ns ++ ns', rem)
          end
      end
  end.

(** [RelayPoolTask::run] (reached from [RelayPool::start]): when the task
    is already running nothing new consumes the channel; otherwise the
    flag is set and the loop consumes it. *)
Definition run (st : TaskState) (msgs : list RelayPoolMessage.t)
  : option (TaskState * list RelayPoolNotification.t
            * list RelayPoolMessage.t) :=
  if running st then Some (st, [], msgs)
  else
    run_msgs {| running := true; receiver_closed := receiver_closed st;
                events := events st |} msgs.

End Aggregator.

(** A raw frame that [handle_relay_message] must reject: for an event,
    one of its decoding steps or checks fails; for any other message,
    its conversion fails. *)
Definition frame_rejected (codec : EventCodec) (msg : RawRelayMessage.t)
  : Prop :=
  match msg with
  | RawRelayMessage.Event _ json =>
      (exists e, partial_event_from_json codec json = Err e) \/
      (exists p e, partial_event_from_json codec json = Ok p /\
                   verify_signature codec p = Err e) \/
      (exists e, missing_partial_event_from_json codec json = Err e) \/
      (exists p m, partial_event_from_json codec json = Ok p /\
                   missing_partial_event_from_json codec json = Ok m /\
                   is_expired codec (merge p m) = true) \/
      (exists p m e, partial_event_from_json codec json = Ok p /\
                     missing_partial_event_from_json codec json = Ok m /\
                     verify_id codec (merge p m) = Err e)
  | m => exists e, relay_message_try_from codec m = Err e
  end.

(** The [Event] notifications of a notification sequence that carry a
    given event ID. *)
Definition event_notifications_for (event_id : EventId)
  (ns : list RelayPoolNotification.t) : list RelayPoolNotification.t :=
  filter (fun n => match n with
                   | RelayPoolNotification.Event _ ev => N.eqb (Event.id ev) event_id
                   | _ => false
                   end) ns.

(* ------------------------------------------------------------------ *)
(** ** Outbound side ([RelayPool]) *)

(** Modelled from the spec: [RelayRole] (defined in the relay module),
    with the values the spec names. *)
Inductive RelayRole : Type := Read | Write | ReadWrite.

Definition RelayRole_eqb (a b : RelayRole) : bool :=
  match a, b with
  | Read, Read | Write, Write | ReadWrite, ReadWrite => true
  | _, _ => false
  end.

(** [roles.contains(&role)] *)
Definition role_in (role : RelayRole) (roles : list RelayRole) : bool :=
  existsb (RelayRole_eqb role) roles.

(** A subscription filter, kept as its JSON text. *)
Definition Filter := string.

(** [InternalSubscriptionId] of the relay module; the pool uses [Pool]. *)
Inductive InternalSubscriptionId : Type :=
| Default
| Pool
| Custom (name : string).

Module ClientMessage.
Inductive t : Type :=
| Event (event : Event.t)
| Req (subscription_id : string) (filters : list Filter)
| Close (subscription_id : string)
| Auth (event : Event.t).
End ClientMessage.

(** [RelaySendOptions] are handed to the relay driver unchanged. *)
Definition RelaySendOptions := option Duration.

(** The relay driver calls made by the fan-out operations, per relay URL.
    [Some r]: the call returns [r] (its error converted into [Error.t]);
    [None]: the call panics, so that the task running it fails to join. *)
Record RelayDriver : Type := {
  relay_send_msg : Url -> ClientMessage.t -> option Duration ->
                   option (result unit Error.t);
  relay_batch_msg : Url -> list ClientMessage.t -> option Duration ->
                    option (result unit Error.t);
  relay_send_event : Url -> Event.t -> RelaySendOptions ->
                     option (result EventId Error.t);
  relay_batch_event : Url -> list Event.t -> RelaySendOptions ->
                      option (result unit Error.t)
}.

(** Effects of the pool, in the order they are performed. *)
Module Action.
Inductive t : Type :=
| Enqueue (msg : RelayPoolMessage.t)
| EnqueueFailed (msg : RelayPoolMessage.t)
| SendMsg (url : Url) (msg : ClientMessage.t)
| BatchMsg (url : Url) (msgs : list ClientMessage.t)
| SendEvent (url : Url) (event : Event.t)
| BatchEvent (url : Url) (events : list Event.t)
| StoreFilters (filters : list Filter)
| UpdateSubscriptionFilters (url : Url) (id : InternalSubscriptionId)
    (filters : list Filter)
| SubscribeWithInternalId (url : Url) (id : InternalSubscriptionId)
    (filters : list Filter) (wait : option Duration)
| Connect (url : Url) (wait_for_connection : bool).

(** A call into a relay driver that sends something. *)
Definition is_relay_send (a : t) : bool :=
  match a with
  | SendMsg _ _ | BatchMsg _ _ | SendEvent _ _ | BatchEvent _ _ => true
  | _ => false
  end.
End Action.

(** The pool: its registry (URL and role of each relay handle), its
    stored subscription filters, and the aggregator channel (whether its
    receiver is closed, and the messages waiting in it). *)
Record PoolState : Type := {
  relays : list (Url * RelayRole);
  filters : list Filter;
  channel_closed : bool;
  channel : list RelayPoolMessage.t
}.

(** State and effect-trace monad of the pool operations. *)
Definition PoolM (A : Type) : Type := PoolState -> A * PoolState * list Action.t.

Definition ret {A} (a : A) : PoolM A := fun st => (a, st, []).

Definition bind {A B} (m : PoolM A) (k : A -> PoolM B) : PoolM B :=
  fun st =>
    let '(a, st1, tr1) := m st in
    let '(b, st2, tr2) := k a st1 in
    (b, st2, tr1 ++ tr2).

Notation "'let*' x ':=' m 'in' k" := (bind m (fun x => k))
  (at level 200, x name, right associativity).

Definition get_state : PoolM PoolState := fun st => (st, st, []).

Definition emit (a : Action.t) : PoolM unit := fun st => (tt, st, [a]).

(** [RelayPool::set_events_as_sent]: [pool_task_sender.send(..).await];
    on a closed channel the error is logged and nothing is enqueued. *)
Definition set_events_as_sent (ids : list EventId) : PoolM unit :=
  fun st =>
    let msg := RelayPoolMessage.BatchEvent ids in
    if channel_closed st then (tt, st, [Action.EnqueueFailed msg])
    else
      (tt, {| relays := relays st; filters := filters st;
              channel_closed := false; channel := channel st ++ [msg] |},
       [Action.Enqueue msg]).

(** The spawning loop of a fan-out: one task per relay whose role is
    accepted, each performing [call url]; the outcomes of the tasks, in
    spawning order. *)
Fixpoint spawn_all {A} (rs : list (Url * RelayRole)) (roles : list RelayRole)
  (call : Url -> Action.t * option (result A Error.t))
  : PoolM (list (option (result A Error.t))) :=
  match rs with
  | [] => ret []
  | (url, role) :: rest =>
      if role_in role roles then
        let* _ := emit (fst (call url)) in
        let* outs := spawn_all rest roles call in
        ret (snd (call url) :: outs)
      else spawn_all rest roles call
  end.

(** [for handle in handles { handle.join().await?; }] *)
Fixpoint join_all {A} (outs : list (option (result A Error.t)))
  : result unit Error.t :=
  match outs with
  | [] => Ok tt
  | None :: _ => Err (Error.Thread "task failed to join")
  | Some _ :: rest => join_all rest
  end.

(** The [sent_to_at_least_one_relay] flag after all tasks: set by every
    task whose relay call returned [Ok]. *)
Definition sent_to_at_least_one_relay {A} (outs : list (option (result A Error.t)))
  : bool :=
  existsb (fun o => match o with Some (Ok _) => true | _ => false end) outs.

Definition is_empty {A} (l : list A) : bool :=
  match l with [] => true | _ => false end.

(** [RelayPool::send_msg] *)
Definition send_msg (drv : RelayDriver) (msg : ClientMessage.t)
  (roles : list RelayRole) (wait : option Duration) : PoolM (result unit Error.t) :=
  let* st := get_state in
  if is_empty (relays st) then ret (Err Error.NoRelays)
  else
    let* _ := match msg with
              | ClientMessage.Event event => set_events_as_sent [Event.id event]
              | _ => ret tt
              end in
    let* outs := spawn_all (relays st) roles
                   (fun url => (Action.SendMsg url msg,
                                relay_send_msg drv url msg wait)) in
    ret (let? _ := join_all outs in
         if sent_to_at_least_one_relay outs then Ok tt else Err Error.MsgNotSent).

(** The IDs of the [ClientMessage::Event] messages of a batch. *)
Definition event_ids_of (msgs : list ClientMessage.t) : list EventId :=
  flat_map (fun msg => match msg with
                       | ClientMessage.Event event => [Event.id event]
                       | _ => []
                       end) msgs.

(** [RelayPool::batch_msg] *)
Definition batch_msg (drv : RelayDriver) (msgs : list ClientMessage.t)
  (roles : list RelayRole) (wait : option Duration) : PoolM (result unit Error.t) :=
  let* st := get_state in
  if is_empty (relays st) then ret (Err Error.NoRelays)
  else
    let* _ := set_events_as_sent (event_ids_of msgs) in
    let* outs := spawn_all (relays st) roles
                   (fun url => (Action.BatchMsg url msgs,
                                relay_batch_msg drv url msgs wait)) in
    ret (let? _ := join_all outs in
         if sent_to_at_least_one_relay outs then Ok tt else Err Error.MsgNotSent).

(** [relays.get(&url)] *)
Definition find_relay (url : Url) (rs : list (Url * RelayRole))
  : option RelayRole :=
  option_map snd (find (fun p => String.eqb (fst p) url) rs).

(** [RelayPool::send_msg_to]; the outer [None] is a panic of the relay
    call, which the caller sees directly. *)
Definition send_msg_to (drv : RelayDriver) (url : Url) (msg : ClientMessage.t)
  (wait : option Duration) : PoolM (option (result unit Error.t)) :=
  let* st := get_state in
  match find_relay url (relays st) with
  | None => ret (Some (Err Error.RelayNotFound))
  | Some _ =>
      let* _ := match msg with
                | ClientMessage.Event event => set_events_as_sent [Event.id event]
                | _ => ret tt
                end in
      let* _ := emit (Action.SendMsg url msg) in
      ret (relay_send_msg drv url msg wait)
  end.

(** [RelayPool::send_event] *)
Definition send_event (drv : RelayDriver) (event : Event.t)
  (roles : list RelayRole) (opts : RelaySendOptions)
  : PoolM (result EventId Error.t) :=
  let* st := get_state in
  if is_empty (relays st) then ret (Err Error.NoRelays)
  else
    let* _ := set_events_as_sent [Event.id event] in
    let event_id := Event.id event in
    let* outs := spawn_all (relays st) roles
                   (fun url => (Action.SendEvent url event,
                                relay_send_event drv url event opts)) in
    ret (let? _ := join_all outs in
         if sent_to_at_least_one_relay outs then Ok event_id
         else Err (Error.EventNotPublished event_id)).

(** [RelayPool::batch_event] *)
Definition batch_event (drv : RelayDriver) (events : list Event.t)
  (roles : list RelayRole) (opts : RelaySendOptions)
  : PoolM (result unit Error.t) :=
  let* st := get_state in
  if is_empty (relays st) then ret (Err Error.NoRelays)
  else
    let* _ := set_events_as_sent (map Event.id events) in
    let* outs := spawn_all (relays st) roles
                   (fun url => (Action.BatchEvent url events,
                                relay_batch_event drv url events opts)) in
    ret (let? _ := join_all outs in
         if sent_to_at_least_one_relay outs then Ok tt
         else Err Error.EventsNotPublished).

(** [RelayPool::send_event_to] *)
Definition send_event_to (drv : RelayDriver) (url : Url) (event : Event.t)
  (opts : RelaySendOptions) : PoolM (option (result EventId Error.t)) :=
  let* st := get_state in
  match find_relay url (relays st) with
  | None => ret (Some (Err Error.RelayNotFound))
  | Some _ =>
      let* _ := set_events_as_sent [Event.id event] in
      let* _ := emit (Action.SendEvent url event) in
      ret (relay_send_event drv url event opts)
  end.

(** [RelayPool::add_relay]: a URL already present is left as it is. *)
Definition add_relay (url : Url) (role : RelayRole) : PoolM (result bool Error.t) :=
  fun st =>
    match find_relay url (relays st) with
    | Some _ => (Ok false, st, [])
    | None =>
        (Ok true,
         {| relays := relays st ++ [(url, role)]; filters := filters st;
            channel_closed := channel_closed st; channel := channel st |},
         [])
    end.

(** [RelayPool::update_subscription_filters] *)
Definition update_subscription_filters (fs : list Filter) : PoolM unit :=
  fun st =>
    (tt, {| relays := relays st; filters := fs;
            channel_closed := channel_closed st; channel := channel st |},
     [Action.StoreFilters fs]).

(** [for relay in relays.values() { relay.subscribe_with_internal_id(..) }] *)
Fixpoint subscribe_each (rs : list (Url * RelayRole)) (fs : list Filter)
  (wait : option Duration) : PoolM unit :=
  match rs with
  | [] => ret tt
  | (url, _) :: rest =>
      let* _ := emit (Action.SubscribeWithInternalId url Pool fs wait) in
      subscribe_each rest fs wait
  end.

(** [RelayPool::subscribe] *)
Definition subscribe (fs : list Filter) (wait : option Duration) : PoolM unit :=
  let* st := get_state in
  let* _ := update_subscription_filters fs in
  subscribe_each (relays st) fs wait.

(** [RelayPool::connect_relay] *)
Definition connect_relay (url : Url) (wait_for_connection : bool) : PoolM unit :=
  let* st := get_state in
  let* _ := emit (Action.UpdateSubscriptionFilters url Pool (filters st)) in
  emit (Action.Connect url wait_for_connection).

(** The result component of a pool operation. *)
Definition result_of {A} (x : A * PoolState * list Action.t) : A :=
  let '(a, _, _) := x in a.

(** The relays a fan-out spawns a task for. *)
Definition matched (rs : list (Url * RelayRole)) (roles : list RelayRole)
  : list (Url * RelayRole) :=
  filter (fun p => role_in (snd p) roles) rs.

(** The marker effect of [set_events_as_sent] in a given state. *)
Definition marker_action (st : PoolState) (ids : list EventId) : Action.t :=
  if channel_closed st then Action.EnqueueFailed (RelayPoolMessage.BatchEvent ids)
  else Action.Enqueue (RelayPoolMessage.BatchEvent ids).

(** The pool state after [set_events_as_sent]. *)
Definition marker_state (st : PoolState) (ids : list EventId) : PoolState :=
  if channel_closed st then st
  else {| relays := relays st; filters := filters st; channel_closed := false;
          channel := channel st ++ [RelayPoolMessage.BatchEvent ids] |}.

(** The effects of a publishing operation: when [noop] holds (no relay,
    or relay not found) it has no effect at all; otherwise its first
    effect is the attempt to enqueue the [BatchEvent] marker, followed by
    exactly the relay sends [sends], whatever the state of the channel;
    the marker is in the channel afterwards unless the receiver was
    closed. *)
Definition marker_first {A} (st : PoolState) (ids : list EventId) (noop : bool)
  (sends : list Action.t) (x : A * PoolState * list Action.t) : Prop :=
  let '(_, st', tr) := x in
  if noop then st' = st /\ tr = []
  else
    tr = marker_action st ids :: sends /\
    channel st' = (if channel_closed st then channel st
                   else channel st ++ [RelayPoolMessage.BatchEvent ids]).

(** Whether a targeted send stops at the relay lookup. *)
Definition relay_missing (url : Url) (st : PoolState) : bool :=
  match find_relay url (relays st) with None => true | Some _ => false end.

(* ------------------------------------------------------------------ *)
(** ** Relay control of the pool (pool.rs) *)

(** The relay calls of the pool's control functions, each as [Relay]
    gives it: [terminate] and [stop] are awaited in place; [reconcilie]
    runs in a spawned task, whose [None] is a panic of the task. *)
Record RelayControl : Type := {
  relay_terminate : Url -> result unit Error.t;
  relay_stop : Url -> result unit Error.t;
  relay_reconcilie : Url -> option (result unit Error.t)
}.

(** Relay calls made by the control functions, in order. *)
Module RelayCall.
Inductive t : Type :=
| Terminate (url : Url)
| Stop (url : Url)
| UnsubscribeWithInternalId (url : Url) (id : InternalSubscriptionId)
    (wait : option Duration)
| Reconcilie (url : Url).
End RelayCall.

(** [relays.remove(&url)] *)
Definition remove_url (url : Url) (rs : list (Url * RelayRole))
  : list (Url * RelayRole) :=
  filter (fun p => negb (String.eqb (fst p) url)) rs.

(** [RelayPool::disconnect_relay]: [relay.terminate().await?; Ok(())] *)
Definition disconnect_relay (ctl : RelayControl) (url : Url) : result unit Error.t :=
  let? _ := relay_terminate ctl url in Ok tt.

(** [RelayPool::remove_relay]: the relay leaves the registry before it
    is disconnected. *)
Definition remove_relay (ctl : RelayControl) (url : Url) (st : PoolState)
  : result unit Error.t * PoolState * list RelayCall.t :=
  match find_relay url (relays st) with
  | None => (Ok tt, st, [])
  | Some _ =>
      let st' := {| relays := remove_url url (relays st); filters := filters st;
                    channel_closed := channel_closed st; channel := channel st |} in
      ((let? _ := disconnect_relay ctl url in Ok tt), st', [RelayCall.Terminate url])
  end.

(** [for relay in relays.values() { call(relay).await?; }]: the relays
    called, up to and including the first that fails. *)
Fixpoint call_each (call : Url -> result unit Error.t) (mk : Url -> RelayCall.t)
  (rs : list (Url * RelayRole)) : result unit Error.t * list RelayCall.t :=
  match rs with
  | [] => (Ok tt, [])
  | (url, _) :: rest =>
      match call url with
      | Err e => (Err e, [mk url])
      | Ok _ =>
          let '(r, calls) := call_each call mk rest in
          (r, mk url :: calls)
      end
  end.

(** [RelayPool::disconnect] *)
Definition disconnect (ctl : RelayControl) (st : PoolState)
  : result unit Error.t * list RelayCall.t :=
  call_each (disconnect_relay ctl) RelayCall.Terminate (relays st).

(** [RelayPool::shutdown]: the result, the relay calls, and whether the
    task that sends [Shutdown] after three seconds is spawned. *)
Definition shutdown (ctl : RelayControl) (st : PoolState)
  : result unit Error.t * list RelayCall.t * bool :=
  let '(r, calls) := disconnect ctl st in
  match r with
  | Err e => (Err e, calls, false)
  | Ok _ => (Ok tt, calls, true)
  end.

(** [pool_task_sender.try_send(msg)]: it fails on a closed or a full
    channel of capacity [task_channel_size]; the error is only logged. *)
Definition try_send (task_channel_size : nat) (msg : RelayPoolMessage.t)
  (st : PoolState) : PoolState :=
  if channel_closed st || (task_channel_size <=? length (channel st)) then st
  else {| relays := relays st; filters := filters st; channel_closed := false;
          channel := channel st ++ [msg] |}.

(** [RelayPool::stop] *)
Definition stop (ctl : RelayControl) (task_channel_size : nat) (st : PoolState)
  : result unit Error.t * PoolState * list RelayCall.t :=
  let '(r, calls) := call_each (relay_stop ctl) RelayCall.Stop (relays st) in
  match r with
  | Err e => (Err e, st, calls)
  | Ok _ => (Ok tt, try_send task_channel_size RelayPoolMessage.Stop st, calls)
  end.

(** [RelayPool::unsubscribe]: one [unsubscribe_with_internal_id(Pool, wait)]
    per relay, whose errors are only logged; nothing else changes. *)
Definition unsubscribe (wait : option Duration) (st : PoolState)
  : PoolState * list RelayCall.t :=
  (st, map (fun p => RelayCall.UnsubscribeWithInternalId (fst p) Pool wait)
           (relays st)).

(** [RelayPool::reconcilie]: one task per relay, whose errors are only
    logged; then the joins. *)
Definition reconcilie (ctl : RelayControl) (st : PoolState) : result unit Error.t :=
  let outs := map (fun p => relay_reconcilie ctl (fst p)) (relays st) in
  let? _ := join_all outs in Ok tt.

(* ------------------------------------------------------------------ *)
(** ** Kinds of the FFI bindings (bindings/nostr-ffi/src/event/kind.rs) *)

(** [nostr::Kind], with the variants the conversions of the bindings
    match on (their [match] is exhaustive); the [u16] / [u64] payloads
    are kept as [N]. *)
Module NostrKind.
Inductive t : Type :=
| Metadata
| TextNote
| RecommendRelay
| ContactList
| EncryptedDirectMessage
| EventDeletion
| Repost
| Reaction
| BadgeAward
| ChannelCreation
| ChannelMetadata
| ChannelMessage
| ChannelHideMessage
| ChannelMuteUser
| PublicChatReserved45
| PublicChatReserved46
| PublicChatReserved47
| PublicChatReserved48
| PublicChatReserved49
| WalletConnectInfo
| Reporting
| ZapRequest
| ZapReceipt
| Zap
| MuteList
| PinList
| RelayList
| Authentication
| WalletConnectRequest
| WalletConnectResponse
| NostrConnect
| CategorizedPeopleList
| CategorizedBookmarkList
| LiveEvent
| LiveEventMessage
| ProfileBadges
| BadgeDefinition
| LongFormTextNote
| ApplicationSpecificData
| FileMetadata
| HttpAuth
| Regular (kind : N)
| Replaceable (kind : N)
| Ephemeral (kind : N)
| ParameterizedReplaceable (kind : N)
| Custom (kind : N).
End NostrKind.

(** The [Kind] enum of the bindings. *)
Module FfiKind.
Inductive t : Type :=
| MetadataK
| TextNote
| RecommendRelay
| ContactList
| EncryptedDirectMessage
| EventDeletion
| Repost
| Reaction
| BadgeAward
| ChannelCreation
| ChannelMetadata
| ChannelMessage
| ChannelHideMessage
| ChannelMuteUser
| PublicChatReserved45
| PublicChatReserved46
| PublicChatReserved47
| PublicChatReserved48
| PublicChatReserved49
| WalletConnectInfo
| Reporting
| ZapRequest
| ZapReceipt
| MuteList
| PinList
| RelayList
| Authentication
| WalletConnectRequest
| WalletConnectResponse
| NostrConnect
| CategorizedPeopleList
| CategorizedBookmarkList
| LiveEvent
| LiveEventMessage
| ProfileBadges
| BadgeDefinition
| LongFormTextNote
| ApplicationSpecificData
| FileMetadataK
| HttpAuth
| Regular (kind : N)
| Replaceable (kind : N)
| Ephemeral (kind : N)
| ParameterizedReplaceable (kind : N)
| Custom (kind : N).

(** [impl From<nostr::Kind> for Kind] *)
Definition from_nostr (value : NostrKind.t) : t :=
  match value with
  | NostrKind.Metadata => MetadataK
  | NostrKind.TextNote => TextNote
  | NostrKind.RecommendRelay => RecommendRelay
  | NostrKind.ContactList => ContactList
  | NostrKind.EncryptedDirectMessage => EncryptedDirectMessage
  | NostrKind.EventDeletion => EventDeletion
  | NostrKind.Repost => Repost
  | NostrKind.Reaction => Reaction
  | NostrKind.BadgeAward => BadgeAward
  | NostrKind.ChannelCreation => ChannelCreation
  | NostrKind.ChannelMetadata => ChannelMetadata
  | NostrKind.ChannelMessage => ChannelMessage
  | NostrKind.ChannelHideMessage => ChannelHideMessage
  | NostrKind.ChannelMuteUser => ChannelMuteUser
  | NostrKind.PublicChatReserved45 => PublicChatReserved45
  | NostrKind.PublicChatReserved46 => PublicChatReserved46
  | NostrKind.PublicChatReserved47 => PublicChatReserved47
  | NostrKind.PublicChatReserved48 => PublicChatReserved48
  | NostrKind.PublicChatReserved49 => PublicChatReserved49
  | NostrKind.WalletConnectInfo => WalletConnectInfo
  | NostrKind.Reporting => Reporting
  | NostrKind.ZapRequest => ZapRequest
  | NostrKind.ZapReceipt => ZapReceipt
  | NostrKind.Zap => ZapReceipt
  | NostrKind.MuteList => MuteList
  | NostrKind.PinList => PinList
  | NostrKind.RelayList => RelayList
  | NostrKind.Authentication => Authentication
  | NostrKind.WalletConnectRequest => WalletConnectRequest
  | NostrKind.WalletConnectResponse => WalletConnectResponse
  | NostrKind.NostrConnect => NostrConnect
  | NostrKind.CategorizedPeopleList => CategorizedPeopleList
  | NostrKind.CategorizedBookmarkList => CategorizedBookmarkList
  | NostrKind.LiveEvent => LiveEvent
  | NostrKind.LiveEventMessage => LiveEventMessage
  | NostrKind.ProfileBadges => ProfileBadges
  | NostrKind.BadgeDefinition => BadgeDefinition
  | NostrKind.LongFormTextNote => LongFormTextNote
  | NostrKind.ApplicationSpecificData => ApplicationSpecificData
  | NostrKind.FileMetadata => FileMetadataK
  | NostrKind.HttpAuth => HttpAuth
  | NostrKind.Regular u => Regular u
  | NostrKind.Replaceable u => Replaceable u
  | NostrKind.Ephemeral u => Ephemeral u
  | NostrKind.ParameterizedReplaceable u => ParameterizedReplaceable u
  | NostrKind.Custom u => Custom u
  end.

(** [impl From<Kind> for nostr::Kind] *)
Definition into_nostr (value : t) : NostrKind.t :=
  match value with
  | MetadataK => NostrKind.Metadata
  | TextNote => NostrKind.TextNote
  | RecommendRelay => NostrKind.RecommendRelay
  | ContactList => NostrKind.ContactList
  | EncryptedDirectMessage => NostrKind.EncryptedDirectMessage
  | EventDeletion => NostrKind.EventDeletion
  | Repost => NostrKind.Repost
  | Reaction => NostrKind.Reaction
  | BadgeAward => NostrKind.BadgeAward
  | ChannelCreation => NostrKind.ChannelCreation
  | ChannelMetadata => NostrKind.ChannelMetadata
  | ChannelMessage => NostrKind.ChannelMessage
  | ChannelHideMessage => NostrKind.ChannelHideMessage
  | ChannelMuteUser => NostrKind.ChannelMuteUser
  | PublicChatReserved45 => NostrKind.PublicChatReserved45
  | PublicChatReserved46 => NostrKind.PublicChatReserved46
  | PublicChatReserved47 => NostrKind.PublicChatReserved47
  | PublicChatReserved48 => NostrKind.PublicChatReserved48
  | PublicChatReserved49 => NostrKind.PublicChatReserved49
  | WalletConnectInfo => NostrKind.WalletConnectInfo
  | Reporting => NostrKind.Reporting
  | ZapRequest => NostrKind.ZapRequest
  | ZapReceipt => NostrKind.ZapReceipt
  | MuteList => NostrKind.MuteList
  | PinList => NostrKind.PinList
  | RelayList => NostrKind.RelayList
  | Authentication => NostrKind.Authentication
  | WalletConnectRequest => NostrKind.WalletConnectRequest
  | WalletConnectResponse => NostrKind.WalletConnectResponse
  | NostrConnect => NostrKind.NostrConnect
  | CategorizedPeopleList => NostrKind.CategorizedPeopleList
  | CategorizedBookmarkList => NostrKind.CategorizedBookmarkList
  | LiveEvent => NostrKind.LiveEvent
  | LiveEventMessage => NostrKind.LiveEventMessage
  | ProfileBadges => NostrKind.ProfileBadges
  | BadgeDefinition => NostrKind.BadgeDefinition
  | LongFormTextNote => NostrKind.LongFormTextNote
  | ApplicationSpecificData => NostrKind.ApplicationSpecificData
  | FileMetadataK => NostrKind.FileMetadata
  | HttpAuth => NostrKind.HttpAuth
  | Regular kind => NostrKind.Regular kind
  | Replaceable kind => NostrKind.Replaceable kind
  | Ephemeral kind => NostrKind.Ephemeral kind
  | ParameterizedReplaceable kind => NostrKind.ParameterizedReplaceable kind
  | Custom kind => NostrKind.Custom kind
  end.
End FfiKind.

(* ------------------------------------------------------------------ *)
(** ** NIP-59 gift wraps (crates/nostr/src/nips/nip59.rs) *)

(** [nip59::Error]; the wrapped errors carry their message only. *)
Module Nip59Error.
Inductive t : Type :=
| Key (msg : string)
| Event (msg : string)
| Unsigned (msg : string)
| NIP44 (msg : string)
| NotGiftWrap
| ReceiverPubkeyNotFound.
End Nip59Error.

(** [UnsignedEvent]: an event without signature. *)
Record UnsignedEvent : Type := {
  unsigned_id : EventId;
  unsigned_pubkey : string;
  unsigned_created_at : N;
  unsigned_kind : N;
  unsigned_tags : list (list string);
  unsigned_content : string
}.

(** [Kind::GiftWrap], kind 1059; kinds are compared by number. *)
Definition GIFT_WRAP_KIND : N := 1059.

(** The functions of the [nostr] crate that [extract_rumor] calls.  Keys
    and public/secret keys are kept as their hex text.  [tag_public_key]
    tells whether a tag is [Tag::PubKey] and gives its key. *)
Record Nip59Env : Type := {
  keys_secret_key : string -> result string string;
  tag_public_key : list string -> option string;
  nip44_decrypt : string -> string -> string -> result string string;
  event_from_json : string -> result Event.t string;
  unsigned_event_from_json : string -> result UnsignedEvent string
}.

(** The [for tag in event.tags.iter()] loop of [extract_first_public_key]. *)
Fixpoint first_public_key (env : Nip59Env) (tags : list (list string))
  : option string :=
  match tags with
  | [] => None
  | tag :: rest =>
      match tag_public_key env tag with
      | Some public_key => Some public_key
      | None => first_public_key env rest
      end
  end.

(** [nip59::extract_first_public_key] *)
Definition extract_first_public_key (env : Nip59Env) (event : Event.t)
  : option string :=
  first_public_key env (Event.tags event).

(** [nip59::extract_rumor] *)
Definition extract_rumor (env : Nip59Env) (keys : string) (gift_wrap : Event.t)
  : result UnsignedEvent Nip59Error.t :=
  if negb (N.eqb (Event.kind gift_wrap) GIFT_WRAP_KIND) then Err Nip59Error.NotGiftWrap
  else
    match keys_secret_key env keys with
    | Err e => Err (Nip59Error.Key e)
    | Ok secret_key =>
        match extract_first_public_key env gift_wrap with
        | None => Err Nip59Error.ReceiverPubkeyNotFound
        | Some receiver =>
            match nip44_decrypt env secret_key receiver (Event.content gift_wrap) with
            | Err e => Err (Nip59Error.NIP44 e)
            | Ok seal =>
                match event_from_json env seal with
                | Err e => Err (Nip59Error.Event e)
                | Ok seal =>
                    match nip44_decrypt env secret_key receiver (Event.content seal) with
                    | Err e => Err (Nip59Error.NIP44 e)
                    | Ok rumor =>
                        match unsigned_event_from_json env rumor with
                        | Err e => Err (Nip59Error.Unsigned e)
                        | Ok rumor => Ok rumor
                        end
                    end
                end
            end
        end
    end.

(** A codec for concrete runs: the JSON texts ["e1"] and ["e2"] are two
    well-formed events with IDs 1 and 2 whose checks all pass (as for
    correctly signed, unexpired events); any other text does not
    decode. *)
Definition stub_partial (n : EventId) : PartialEvent :=
  {| partial_id := n; partial_pubkey := "pk"; partial_sig := "sig" |}.

Definition stub_missing : MissingPartialEvent :=
  {| missing_created_at := 0%N; missing_kind := 1%N; missing_tags := [];
     missing_content := "" |}.

Definition stub_codec : EventCodec :=
  {| partial_event_from_json := fun json =>
       if String.eqb json "e1" then Ok (stub_partial 1%N)
       else if String.eqb json "e2" then Ok (stub_partial 2%N)
       else Err (Error.PartialEvent "invalid json");
     verify_signature := fun _ => Ok tt;
     missing_partial_event_from_json := fun json =>
       if String.eqb json "e1" then Ok stub_missing
       else if String.eqb json "e2" then Ok stub_missing
       else Err (Error.Event "invalid json");
     is_expired := fun _ => false;
     verify_id := fun _ => Ok tt;
     relay_message_try_from := fun m =>
       match m with
       | RawRelayMessage.Notice message => Ok (RelayMessage.Notice message)
       | RawRelayMessage.EndOfStoredEvents sid =>
           Ok (RelayMessage.EndOfStoredEvents sid)
       | _ => Err (Error.MessageHandler "unsupported")
       end |}.

Definition empty_task : TaskState :=
  {| running := true; receiver_closed := false; events := [] |}.

(** A relay driver for concrete runs: the relay at ["wss://a"] accepts
    single messages and events, the call of any other relay panics, and
    batches are refused by every relay. *)
Definition stub_driver : RelayDriver :=
  {| relay_send_msg := fun url _ _ =>
       if String.eqb url "wss://a" then Some (Ok tt) else None;
     relay_batch_msg := fun _ _ _ => Some (Err (Error.Relay "not connected"));
     relay_send_event := fun url event _ =>
       if String.eqb url "wss://a" then Some (Ok (Event.id event)) else None;
     relay_batch_event := fun _ _ _ => Some (Err (Error.Relay "not connected")) |}.

Definition stub_event : Event.t := merge (stub_partial 1%N) stub_missing.

(** Two write relays, channel open. *)
Definition two_relays : PoolState :=
  {| relays := [("wss://a"%string, Write); ("wss://b"%string, Write)];
     filters := []; channel_closed := false; channel := [] |}.

(** One write relay, channel open. *)
Definition one_relay : PoolState :=
  {| relays := [("wss://a"%string, Write)];
     filters := []; channel_closed := false; channel := [] |}.

(** One write relay, after a [Shutdown] closed the channel's receiver. *)
Definition one_relay_closed : PoolState :=
  {| relays := [("wss://a"%string, Write)];
     filters := []; channel_closed := true; channel := [] |}.

(** Relay control for concrete runs: the relay at ["wss://b"] fails to
    terminate and to stop, every other relay succeeds; reconciliation
    tasks all complete. *)
Definition stub_control : RelayControl :=
  {| relay_terminate := fun url =>
       if String.eqb url "wss://b" then Err (Error.Relay "terminate failed") else Ok tt;
     relay_stop := fun url =>
       if String.eqb url "wss://b" then Err (Error.Relay "stop failed") else Ok tt;
     relay_reconcilie := fun _ => Some (Ok tt) |}.

(** A codec whose events all decode and carry a valid signature, but are
    expired and have a wrong ID. *)
Definition expired_codec : EventCodec :=
  {| partial_event_from_json := fun _ => Ok (stub_partial 1%N);
     verify_signature := fun _ => Ok tt;
     missing_partial_event_from_json := fun _ => Ok stub_missing;
     is_expired := fun _ => true;
     verify_id := fun _ => Err (Error.Event "invalid event id");
     relay_message_try_from := fun _ => Err (Error.MessageHandler "unsupported") |}.

(** A NIP-59 environment for concrete runs: the keys ["nsec"] hold a
    secret key, other keys do not; [["p"; pk]] is a [PubKey] tag. *)
Definition stub_nip59 : Nip59Env :=
  {| keys_secret_key := fun keys =>
       if String.eqb keys "nsec" then Ok "sk"%string else Err "secret key missing"%string;
     tag_public_key := fun tag =>
       match tag with
       | [t; pk] => if String.eqb t "p" then Some pk else None
       | _ => None
       end;
     nip44_decrypt := fun _ _ c => Ok c;
     event_from_json := fun _ => Err "invalid json"%string;
     unsigned_event_from_json := fun _ => Err "invalid json"%string |}.

(** A gift wrap of kind [k] with the given tags. *)
Definition stub_wrap (k : N) (tags : list (list string)) : Event.t :=
  Event.mk 7%N "pk" 0%N k tags "sealed" "sig".

(* ================================================================== *)
(** * Proofs *)

(** ** Seen-event cache *)

Lemma contains_In (event_id : EventId) (events : Deque) :
  contains event_id events = true <-> In event_id events.
Proof.
  unfold contains. rewrite existsb_exists. split.
  - intros [x [Hin Heq]]. apply N.eqb_eq in Heq. subst. exact Hin.
  - intros Hin. exists event_id. split; [exact Hin | apply N.eqb_refl].
Qed.

Lemma contains_false_not_In (event_id : EventId) (events : Deque) :
  contains event_id events = false <-> ~ In event_id events.
Proof.
  rewrite <- contains_In. destruct (contains event_id events); intuition congruence.
Qed.

(** With capacity 0 the loop condition [len >= 0] always holds. *)
Lemma evict_loop_diverges (fuel : nat) (events : Deque) :
  evict_loop fuel 0 events = None.
Proof.
  revert events. induction fuel as [|fuel IH]; intros events; [reflexivity|].
  simpl. apply IH.
Qed.

(** With a positive capacity the loop leaves once the deque is shorter
    than the capacity, having dropped the oldest elements. *)
Lemma evict_loop_keeps_suffix (max_seen_events fuel : nat) (events : Deque) :
  1 <= max_seen_events -> length events < fuel ->
  evict_loop fuel max_seen_events events
  = Some (skipn (length events - (max_seen_events - 1)) events).
Proof.
  intros Hmax. revert events.
  induction fuel as [|fuel IH]; intros events Hlen; [lia|].
  simpl. destruct (max_seen_events <=? length events) eqn:Hle.
  - apply Nat.leb_le in Hle.
    destruct events as [|x rest]; simpl in Hle; [lia|].
    simpl pop_front. rewrite IH by (simpl in Hlen; lia).
    simpl length.
    replace (S (length rest) - (max_seen_events - 1))
      with (S (length rest - (max_seen_events - 1))) by lia.
    reflexivity.
  - apply Nat.leb_gt in Hle.
    replace (length events - (max_seen_events - 1)) with 0 by lia.
    reflexivity.
Qed.

Lemma evict_some (max_seen_events : nat) (events : Deque) :
  1 <= max_seen_events ->
  evict max_seen_events events
  = Some (skipn (length events - (max_seen_events - 1)) events).
Proof.
  intros Hmax. unfold evict. apply evict_loop_keeps_suffix; lia.
Qed.

Lemma evict_none_iff (max_seen_events : nat) (events : Deque) :
  evict max_seen_events events = None <-> max_seen_events = 0.
Proof.
  split.
  - intros H. destruct max_seen_events as [|m]; [reflexivity|].
    rewrite evict_some in H by lia. discriminate.
  - intros ->. apply evict_loop_diverges.
Qed.

Lemma skipn_NoDup (k : nat) (events : Deque) :
  NoDup events -> NoDup (skipn k events).
Proof.
  intros H. rewrite <- (firstn_skipn k events) in H.
  exact (NoDup_app_remove_l _ _ H).
Qed.

Lemma skipn_incl (k : nat) (events : Deque) (x : EventId) :
  In x (skipn k events) -> In x events.
Proof.
  intros H. rewrite <- (firstn_skipn k events). apply in_or_app. now right.
Qed.

Lemma push_back_NoDup (events : Deque) (event_id : EventId) :
  NoDup events -> ~ In event_id events -> NoDup (push_back events event_id).
Proof.
  intros Hnd Hnin. unfold push_back. apply NoDup_app; [exact Hnd | |].
  - constructor; [intros [] | constructor].
  - intros a Ha [<- | []]. contradiction.
Qed.

(** One admission of a new ID: evict, then append. *)
Lemma admit_new_inv (max_seen_events : nat) (events : Deque)
  (event_id : EventId) :
  1 <= max_seen_events -> cache_inv max_seen_events events ->
  ~ In event_id events ->
  cache_inv max_seen_events
    (push_back (skipn (length events - (max_seen_events - 1)) events) event_id).
Proof.
  intros Hmax [Hnd _] Hnin. split.
  - apply push_back_NoDup; [now apply skipn_NoDup|].
    intros Hin. apply Hnin. eapply skipn_incl; exact Hin.
  - intros _. unfold push_back. rewrite length_app, length_skipn. simpl. destruct max_seen_events; lia.
Qed.

Lemma add_event_inv (max_seen_events : nat) (events : Deque)
  (event_id : EventId) (b : bool) (events' : Deque) :
  cache_inv max_seen_events events ->
  add_event max_seen_events events event_id = Some (b, events') ->
  cache_inv max_seen_events events'.
Proof.
  intros Hinv. unfold add_event.
  destruct (contains event_id events) eqn:Hc.
  - intros H. injection H as <- <-. exact Hinv.
  - destruct max_seen_events as [|m].
    + unfold evict. rewrite evict_loop_diverges. discriminate.
    + rewrite evict_some by lia. intros H. injection H as <- <-.
      apply admit_new_inv; [lia | exact Hinv |].
      now apply contains_false_not_In.
Qed.

Lemma add_events_loop_inv (max_seen_events : nat) (ids : list EventId) :
  forall events events',
  cache_inv max_seen_events events ->
  add_events_loop max_seen_events events ids = Some events' ->
  cache_inv max_seen_events events'.
Proof.
  induction ids as [|event_id rest IH]; intros events events' Hinv H.
  - simpl in H. injection H as <-. exact Hinv.
  - simpl in H. destruct (contains event_id events) eqn:Hc; simpl in H.
    + exact (IH _ _ Hinv H).
    + destruct max_seen_events as [|m].
      * unfold evict in H. rewrite evict_loop_diverges in H. discriminate.
      * rewrite evict_some in H by lia.
        refine (IH _ _ _ H).
        apply admit_new_inv; [lia | exact Hinv |].
        now apply contains_false_not_In.
Qed.

Lemma add_events_inv (max_seen_events : nat) (events : Deque)
  (ids : list EventId) (events' : Deque) :
  cache_inv max_seen_events events ->
  add_events max_seen_events events ids = Some events' ->
  cache_inv max_seen_events events'.
Proof.
  intros Hinv. unfold add_events. destruct ids as [|i rest].
  - intros H. injection H as <-. exact Hinv.
  - apply add_events_loop_inv. exact Hinv.
Qed.

Lemma cache_inv_empty (max_seen_events : nat) : cache_inv max_seen_events [].
Proof. split; [constructor | simpl; lia]. Qed.

Lemma add_events_loop_some (max_seen_events : nat) (ids : list EventId) :
  1 <= max_seen_events ->
  forall events, exists events', add_events_loop max_seen_events events ids = Some events'.
Proof.
  intros Hmax. induction ids as [|event_id rest IH]; intros events.
  - eexists. reflexivity.
  - simpl. destruct (contains event_id events); simpl.
    + apply IH.
    + rewrite evict_some by exact Hmax. apply IH.
Qed.

Lemma add_one_at_a_time_none (max_seen_events : nat) (ids : list EventId) :
  fold_left
    (fun acc event_id =>
       match acc with
       | Some q => option_map snd (add_event max_seen_events q event_id)
       | None => None
       end) ids None = None.
Proof. induction ids as [|i rest IH]; [reflexivity | exact IH]. Qed.

Lemma add_events_loop_one_at_a_time (max_seen_events : nat) (ids : list EventId) :
  forall events,
  add_events_loop max_seen_events events ids
  = add_one_at_a_time max_seen_events events ids.
Proof.
  unfold add_one_at_a_time.
  induction ids as [|event_id rest IH]; intros events; [reflexivity|].
  simpl. unfold add_event.
  destruct (contains event_id events); simpl.
  - apply IH.
  - destruct (evict max_seen_events events) as [events'|]; simpl.
    + apply IH.
    + symmetry. apply add_one_at_a_time_none.
Qed.

(** C2: [add_event] answers [true] exactly for an ID absent from the cache;
    an absent ID is appended at the tail after the head elements beyond
    [max_seen_events - 1] are evicted; a present ID leaves the cache as
    it is.  [add_event], [add_events] and [clear_already_seen_events]
    preserve the invariant "no duplicate ID, length at most
    [max_seen_events] when it is positive", which the empty initial
    cache satisfies. *)
Theorem add_event_spec (max_seen_events : nat) (events : Deque)
  (event_id : EventId) :
  (In event_id events ->
   add_event max_seen_events events event_id = Some (false, events)) /\
  (~ In event_id events -> 1 <= max_seen_events ->
   add_event max_seen_events events event_id
   = Some (true, push_back
                   (skipn (length events - (max_seen_events - 1)) events)
                   event_id)) /\
  (forall b events',
     add_event max_seen_events events event_id = Some (b, events') ->
     (b = true <-> ~ In event_id events)) /\
  cache_inv max_seen_events [] /\
  (forall b events',
     cache_inv max_seen_events events ->
     add_event max_seen_events events event_id = Some (b, events') ->
     cache_inv max_seen_events events') /\
  (forall ids events',
     cache_inv max_seen_events events ->
     add_events max_seen_events events ids = Some events' ->
     cache_inv max_seen_events events') /\
  cache_inv max_seen_events (clear_already_seen_events events).
Proof.
  split; [|split; [|split; [|split; [|split; [|split]]]]].
  - intros Hin. unfold add_event.
    apply contains_In in Hin. rewrite Hin. reflexivity.
  - intros Hnin Hmax. unfold add_event.
    apply contains_false_not_In in Hnin. rewrite Hnin.
    rewrite evict_some by exact Hmax. reflexivity.
  - intros b events'. unfold add_event.
    destruct (contains event_id events) eqn:Hc.
    + intros H. injection H as <- _. apply contains_In in Hc.
      split; [discriminate | intros Hn; contradiction].
    + destruct (evict max_seen_events events); [|discriminate].
      intros H. injection H as <- _.
      apply contains_false_not_In in Hc. split; auto.
  - apply cache_inv_empty.
  - intros b events' Hinv. apply add_event_inv. exact Hinv.
  - intros ids events' Hinv. apply add_events_inv. exact Hinv.
  - apply cache_inv_empty.
Qed.

(** C8: [add_events] leaves the cache exactly as admitting the IDs one at a
    time with [add_event], in the given order, would (the two also agree
    on not returning, at capacity 0). *)
Theorem add_events_refines_add_event (max_seen_events : nat)
  (events : Deque) (ids : list EventId) :
  add_events max_seen_events events ids
  = add_one_at_a_time max_seen_events events ids.
Proof.
  unfold add_events. destruct ids as [|i rest]; [reflexivity|].
  apply add_events_loop_one_at_a_time.
Qed.

(** C10: With [max_seen_events >= 1] the eviction loop leaves after at most
    [length events] pops with fewer than [max_seen_events] elements left,
    and [add_event] and [add_events] return; at capacity 0 the loop never
    leaves on an empty deque, whatever the number of iterations. *)
Theorem cache_ops_terminate (max_seen_events : nat) (events : Deque)
  (event_id : EventId) (ids : list EventId) :
  1 <= max_seen_events ->
  evict_loop (S (length events)) max_seen_events events
  = Some (skipn (length events - (max_seen_events - 1)) events) /\
  length (skipn (length events - (max_seen_events - 1)) events)
  < max_seen_events /\
  (exists r, add_event max_seen_events events event_id = Some r) /\
  (exists events', add_events max_seen_events events ids = Some events') /\
  (forall fuel, evict_loop fuel 0 [] = None).
Proof.
  intros Hmax. split; [|split; [|split; [|split]]].
  - apply evict_some. exact Hmax.
  - rewrite length_skipn. lia.
  - unfold add_event. destruct (contains event_id events).
    + eexists. reflexivity.
    + rewrite evict_some by exact Hmax. eexists. reflexivity.
  - unfold add_events. destruct ids as [|i rest].
    + eexists. reflexivity.
    + apply add_events_loop_some. exact Hmax.
  - intros fuel. apply evict_loop_diverges.
Qed.

(** ** Inbound aggregator *)

Section AggregatorProofs.
Variable codec : EventCodec.
Variable max_seen_events : nat.

Lemma handle_rejected (msg : RawRelayMessage.t) :
  frame_rejected codec msg ->
  exists e, handle_relay_message codec msg = Err e.
Proof.
  destruct msg as [sid json| | |]; simpl; intros H.
  - destruct (partial_event_from_json codec json) as [p|e] eqn:Hp; [|eauto].
    destruct (verify_signature codec p) as [[]|e] eqn:Hv; [|eauto].
    destruct (missing_partial_event_from_json codec json) as [m|e] eqn:Hm;
      [|eauto].
    destruct (is_expired codec (merge p m)) eqn:Hx; [eauto|].
    destruct (verify_id codec (merge p m)) as [[]|e] eqn:Hi; [|eauto].
    exfalso.
    destruct H as [[e He] | [[p' [e [Hp' Hv']]] | [[e He] |
                  [[p' [m' [Hp' [Hm' Hx']]]] | [p' [m' [e [Hp' [Hm' Hi']]]]]]]]];
      congruence.
  - destruct H as [e He]. rewrite He. eauto.
  - destruct H as [e He]. rewrite He. eauto.
  - destruct H as [e He]. rewrite He. eauto.
Qed.

Lemma step_event_frame (st : TaskState) (relay_url : Url)
  (msg : RawRelayMessage.t) (sid : string) (ev : Event.t) (b : bool) (q : Deque) :
  handle_relay_message codec msg = Ok (RelayMessage.Event sid ev) ->
  add_event max_seen_events (events st) (Event.id ev) = Some (b, q) ->
  step codec max_seen_events st (RelayPoolMessage.ReceivedMsg relay_url msg)
  = Some (set_events st q,
          RelayPoolNotification.Message relay_url (RelayMessage.Event sid ev)
          :: (if b then [RelayPoolNotification.Event relay_url ev] else []),
          Continue).
Proof.
  intros Hh Ha. simpl. rewrite Hh, Ha. destruct b; reflexivity.
Qed.

Lemma add_event_verdict (events0 : Deque) (event_id : EventId) (b : bool)
  (q : Deque) :
  add_event max_seen_events events0 event_id = Some (b, q) ->
  (b = true <-> ~ In event_id events0).
Proof.
  unfold add_event. destruct (contains event_id events0) eqn:Hc.
  - intros H. injection H as <- _. apply contains_In in Hc.
    split; [discriminate | intros Hn; contradiction].
  - destruct (evict max_seen_events events0); [|discriminate].
    intros H. injection H as <- _.
    apply contains_false_not_In in Hc. split; auto.
Qed.

(** An iteration emits no [Event] notification for an ID unless the
    message is a frame that decodes to an event with that ID. *)
Lemma step_no_event_for (X : EventId) (st st' : TaskState)
  (msg : RelayPoolMessage.t) (ns : list RelayPoolNotification.t)
  (ctl : Control) :
  (forall url raw sid ev, msg = RelayPoolMessage.ReceivedMsg url raw ->
     handle_relay_message codec raw = Ok (RelayMessage.Event sid ev) ->
     Event.id ev <> X) ->
  step codec max_seen_events st msg = Some (st', ns, ctl) ->
  event_notifications_for X ns = [].
Proof.
  intros Hnot Hs. destruct msg as [url raw|ids|url status| |]; simpl in Hs.
  - destruct (handle_relay_message codec raw) as [m|e] eqn:Hh.
    + destruct m as [sid ev| | |].
      * destruct (add_event max_seen_events (events st) (Event.id ev))
          as [[[|] q]|]; [| |discriminate]; injection Hs as _ <- _;
          simpl; [|reflexivity].
        assert (Hne : Event.id ev <> X) by exact (Hnot url raw sid ev eq_refl Hh).
        apply N.eqb_neq in Hne. rewrite Hne. reflexivity.
      * injection Hs as _ <- _. reflexivity.
      * injection Hs as _ <- _. reflexivity.
      * injection Hs as _ <- _. reflexivity.
    + injection Hs as _ <- _. reflexivity.
  - destruct (add_events max_seen_events (events st) ids); [|discriminate].
    injection Hs as _ <- _. reflexivity.
  - injection Hs as _ <- _. reflexivity.
  - injection Hs as _ <- _. reflexivity.
  - injection Hs as _ <- _. reflexivity.
Qed.

Lemma run_msgs_no_event_for (X : EventId) (msgs : list RelayPoolMessage.t) :
  forall st st' ns rem,
  (forall url raw sid ev, In (RelayPoolMessage.ReceivedMsg url raw) msgs ->
     handle_relay_message codec raw = Ok (RelayMessage.Event sid ev) ->
     Event.id ev <> X) ->
  run_msgs codec max_seen_events st msgs = Some (st', ns, rem) ->
  event_notifications_for X ns = [].
Proof.
  induction msgs as [|msg rest IH]; intros st st' ns rem Hnot Hrun.
  - simpl in Hrun. injection Hrun as _ <- _. reflexivity.
  - simpl in Hrun.
    destruct (step codec max_seen_events st msg) as [[[st1 ns1] ctl]|] eqn:Hs;
      [|discriminate].
    assert (H1 : event_notifications_for X ns1 = []).
    { apply (step_no_event_for X st st1 msg ns1 ctl); [|exact Hs].
      intros url raw sid ev -> Hh. apply (Hnot url raw sid ev); [now left | exact Hh]. }
    destruct ctl.
    + destruct (run_msgs codec max_seen_events st1 rest) as [[[st2 ns2] rem2]|]
        eqn:Hr; [|discriminate].
      injection Hrun as _ <- _.
      unfold event_notifications_for in *. rewrite filter_app.
      rewrite H1. simpl.
      apply (IH st1 st2 ns2 rem2); [|exact Hr].
      intros url raw sid ev Hin Hh. apply (Hnot url raw sid ev); [now right | exact Hh].
    + injection Hrun as _ <- _. exact H1.
Qed.

End AggregatorProofs.

(** C1: A frame whose event fails a decoding step, the signature check, the
    expiration check or the ID check (or, for another message, whose
    conversion fails) makes [handle_relay_message] return an error; the
    loop iteration then sends no notification, leaves the task state
    (seen-event cache included) unchanged and continues with the next
    message. *)
Theorem rejected_frame_no_effect (codec : EventCodec) (max_seen_events : nat)
  (st : TaskState) (relay_url : Url) (msg : RawRelayMessage.t) :
  frame_rejected codec msg ->
  (exists e, handle_relay_message codec msg = Err e) /\
  step codec max_seen_events st (RelayPoolMessage.ReceivedMsg relay_url msg)
  = Some (st, [], Continue).
Proof.
  intros Hrej. destruct (handle_rejected codec msg Hrej) as [e He].
  split; [exists e; exact He|].
  simpl. rewrite He. reflexivity.
Qed.

(** C7: [Stop] clears the running flag, sends the [Stop] notification and
    breaks out of the loop with the receiver left as it was, so that a
    later start consumes the remaining messages again; [Shutdown] clears
    the running flag, closes the receiver, sends the [Shutdown]
    notification and breaks out of the loop. *)
Theorem stop_and_shutdown (codec : EventCodec) (max_seen_events : nat)
  (st : TaskState) (rest : list RelayPoolMessage.t) :
  run_msgs codec max_seen_events st (RelayPoolMessage.Stop :: rest)
  = Some ({| running := false; receiver_closed := receiver_closed st;
             events := events st |},
          [RelayPoolNotification.Stop], rest) /\
  run codec max_seen_events
    {| running := false; receiver_closed := receiver_closed st;
       events := events st |} rest
  = run_msgs codec max_seen_events
      {| running := true; receiver_closed := receiver_closed st;
         events := events st |} rest /\
  run_msgs codec max_seen_events st (RelayPoolMessage.Shutdown :: rest)
  = Some ({| running := false; receiver_closed := true;
             events := events st |},
          [RelayPoolNotification.Shutdown], rest).
Proof. split; [|split]; reflexivity. Qed.

(** C4: Per verified event frame, the [Message] notification comes first and
    an [Event] notification follows exactly when the ID is admitted for
    the first time.  For two frames of relays [a] and [b] carrying the
    same event ID, processed in that order with any messages [mid] in
    between: if the ID is not in the cache before [a]'s frame, no frame
    of [mid] carries it and it is still in the cache when [b]'s frame is
    processed, exactly one [Event] notification carries the ID, and it
    carries [a]'s URL. *)
Theorem first_seen_rule (codec : EventCodec) (max_seen_events : nat) :
  (forall st relay_url raw sid ev b q,
     handle_relay_message codec raw = Ok (RelayMessage.Event sid ev) ->
     add_event max_seen_events (events st) (Event.id ev) = Some (b, q) ->
     step codec max_seen_events st (RelayPoolMessage.ReceivedMsg relay_url raw)
     = Some (set_events st q,
             RelayPoolNotification.Message relay_url (RelayMessage.Event sid ev)
             :: (if b then [RelayPoolNotification.Event relay_url ev] else []),
             Continue) /\
     (b = true <-> ~ In (Event.id ev) (events st))) /\
  (forall st0 st1 st2 url_a url_b raw_a raw_b sid_a sid_b ev_a ev_b mid
          ns1 ns2 ctl,
     handle_relay_message codec raw_a = Ok (RelayMessage.Event sid_a ev_a) ->
     handle_relay_message codec raw_b = Ok (RelayMessage.Event sid_b ev_b) ->
     Event.id ev_b = Event.id ev_a ->
     ~ In (Event.id ev_a) (events st0) ->
     (forall url raw sid ev, In (RelayPoolMessage.ReceivedMsg url raw) mid ->
        handle_relay_message codec raw = Ok (RelayMessage.Event sid ev) ->
        Event.id ev <> Event.id ev_a) ->
     run_msgs codec max_seen_events st0
       (RelayPoolMessage.ReceivedMsg url_a raw_a :: mid) = Some (st1, ns1, []) ->
     In (Event.id ev_a) (events st1) ->
     step codec max_seen_events st1 (RelayPoolMessage.ReceivedMsg url_b raw_b)
     = Some (st2, ns2, ctl) ->
     (exists ns_mid,
        ns1 = RelayPoolNotification.Message url_a (RelayMessage.Event sid_a ev_a)
              :: RelayPoolNotification.Event url_a ev_a :: ns_mid) /\
     event_notifications_for (Event.id ev_a) (ns1 ++ ns2)
     = [RelayPoolNotification.Event url_a ev_a] /\
     ctl = Continue).
Proof.
  split.
  - intros st relay_url raw sid ev b q Hh Ha. split.
    + exact (step_event_frame codec max_seen_events st relay_url raw sid ev b q Hh Ha).
    + exact (add_event_verdict max_seen_events _ _ b q Ha).
  - intros st0 st1 st2 url_a url_b raw_a raw_b sid_a sid_b ev_a ev_b mid
      ns1 ns2 ctl Hha Hhb Hid Hfresh Hmid Hrun Hkept Hstep.
    simpl in Hrun. rewrite Hha in Hrun.
    destruct (add_event max_seen_events (events st0) (Event.id ev_a))
      as [[b q]|] eqn:Ha; [|discriminate].
    assert (Hb : b = true) by (apply (add_event_verdict max_seen_events _ _ b q Ha); exact Hfresh).
    subst b.
    destruct (run_msgs codec max_seen_events (set_events st0 q) mid)
      as [[[st1' ns'] rem']|] eqn:Hr; [|discriminate].
    injection Hrun as Hst1 Hns1 Hrem. subst st1' ns1 rem'.
    assert (Hn' : event_notifications_for (Event.id ev_a) ns' = [])
      by exact (run_msgs_no_event_for codec max_seen_events _ mid _ _ _ _ Hmid Hr).
    assert (Hb2 : add_event max_seen_events (events st1) (Event.id ev_b)
                  = Some (false, events st1)).
    { rewrite Hid. apply (proj1 (add_event_spec max_seen_events (events st1) _)).
      exact Hkept. }
    rewrite (step_event_frame codec max_seen_events st1 url_b raw_b sid_b ev_b
               false (events st1) Hhb Hb2) in Hstep.
    injection Hstep as _ <- <-.
    split; [eexists; reflexivity|]. split; [|reflexivity].
    unfold event_notifications_for in *. simpl.
    rewrite N.eqb_refl. rewrite filter_app, Hn'. reflexivity.
Qed.

(** C4, counterexample: with capacity 1, relay [a] delivers event 1,
    relay [c] event 2, then relay [b] event 1 again: event 1 was evicted
    by event 2, so two [Event] notifications carry event 1. *)
Lemma first_seen_rule_counterexample :
  match run_msgs stub_codec 1 empty_task
          [RelayPoolMessage.ReceivedMsg "wss://a"%string (RawRelayMessage.Event "sub"%string "e1"%string);
           RelayPoolMessage.ReceivedMsg "wss://c"%string (RawRelayMessage.Event "sub"%string "e2"%string);
           RelayPoolMessage.ReceivedMsg "wss://b"%string (RawRelayMessage.Event "sub"%string "e1"%string)]
  with
  | Some (_, ns, _) =>
      event_notifications_for 1%N ns
      = [RelayPoolNotification.Event "wss://a"%string (merge (stub_partial 1%N) stub_missing);
         RelayPoolNotification.Event "wss://b"%string (merge (stub_partial 1%N) stub_missing)]
  | None => False
  end.
Proof. vm_compute. reflexivity. Qed.

(** ** Outbound fan-out *)

Lemma spawn_all_spec {A} (rs : list (Url * RelayRole)) (roles : list RelayRole)
  (call : Url -> Action.t * option (result A Error.t)) (st : PoolState) :
  spawn_all rs roles call st
  = (map (fun p => snd (call (fst p))) (matched rs roles), st,
     map (fun p => fst (call (fst p))) (matched rs roles)).
Proof.
  induction rs as [|[url role] rest IH]; [reflexivity|].
  simpl. destruct (role_in role roles); [|exact IH].
  unfold bind, emit, ret. rewrite IH. simpl. rewrite app_nil_r. reflexivity.
Qed.

Lemma join_all_cases {A} (outs : list (option (result A Error.t))) :
  (In None outs -> join_all outs = Err (Error.Thread "task failed to join")) /\
  (~ In None outs -> join_all outs = Ok tt).
Proof.
  induction outs as [|o rest IH]; simpl.
  - split; [intros []| reflexivity].
  - destruct o as [r|]; split; intros H.
    + destruct H as [H|H]; [discriminate|]. apply (proj1 IH H).
    + apply (proj2 IH). intros Hin. apply H. now right.
    + reflexivity.
    + exfalso. apply H. now left.
Qed.

Lemma sent_iff {A} (outs : list (option (result A Error.t))) :
  sent_to_at_least_one_relay outs = true <-> exists r, In (Some (Ok r)) outs.
Proof.
  unfold sent_to_at_least_one_relay. rewrite existsb_exists. split.
  - intros [o [Hin Ho]]. destruct o as [[r|e]|]; try discriminate.
    exists r. exact Hin.
  - intros [r Hin]. exists (Some (Ok r)). split; [exact Hin | reflexivity].
Qed.

Lemma in_outs {A} (rs : list (Url * RelayRole)) (roles : list RelayRole)
  (f : Url -> option (result A Error.t)) (o : option (result A Error.t)) :
  In o (map (fun p => f (fst p)) (matched rs roles))
  <-> exists url role, In (url, role) (matched rs roles) /\ f url = o.
Proof.
  rewrite in_map_iff. split.
  - intros [[url role] [Heq Hin]]. exists url, role. split; assumption.
  - intros [url [role [Hin Heq]]]. exists (url, role). split; assumption.
Qed.

(** The verdict of a fan-out, from the outcomes of its tasks: a task that
    failed to join gives [Thread]; otherwise success iff some relay call
    returned [Ok]. *)
Lemma fan_out_verdict {A B} (outs : list (option (result A Error.t)))
  (ok : B) (not_sent : Error.t) :
  let v := (let? _ := join_all outs in
            if sent_to_at_least_one_relay outs then Ok ok else Err not_sent) in
  (In None outs -> v = Err (Error.Thread "task failed to join")) /\
  (~ In None outs ->
   (v = Ok ok <-> exists r, In (Some (Ok r)) outs) /\
   (v <> Ok ok -> v = Err not_sent)).
Proof.
  simpl. split.
  - intros H. rewrite (proj1 (join_all_cases outs) H). reflexivity.
  - intros H. rewrite (proj2 (join_all_cases outs) H).
    rewrite <- sent_iff.
    destruct (sent_to_at_least_one_relay outs); split.
    + split; reflexivity.
    + intros Hne. contradiction.
    + split; discriminate.
    + intros _. reflexivity.
Qed.

Lemma fan_out_shape {A B} (m : PoolM unit) (rs : list (Url * RelayRole))
  (roles : list RelayRole) (call : Url -> Action.t * option (result A Error.t))
  (f : list (option (result A Error.t)) -> B) (st : PoolState) :
  bind m (fun _ => bind (spawn_all rs roles call) (fun outs => ret (f outs))) st
  = let '(_, st1, tr1) := m st in
    (f (map (fun p => snd (call (fst p))) (matched rs roles)), st1,
     tr1 ++ map (fun p => fst (call (fst p))) (matched rs roles)).
Proof.
  unfold bind at 1. destruct (m st) as [[u st1] tr1].
  unfold bind. rewrite spawn_all_spec. simpl. rewrite !app_nil_r. reflexivity.
Qed.

Lemma set_events_as_sent_spec (ids : list EventId) (st : PoolState) :
  set_events_as_sent ids st = (tt, marker_state st ids, [marker_action st ids]).
Proof.
  unfold set_events_as_sent, marker_state, marker_action.
  destruct (channel_closed st); reflexivity.
Qed.


Lemma is_empty_false {A} (l : list A) : l <> [] -> is_empty l = false.
Proof. destruct l; [contradiction | reflexivity]. Qed.

Lemma send_msg_unfold (drv : RelayDriver) (msg : ClientMessage.t)
  (roles : list RelayRole) (wait : option Duration) (st : PoolState) :
  send_msg drv msg roles wait st
  = if is_empty (relays st) then (Err Error.NoRelays, st, [])
    else
      let '(_, st1, tr1) := (match msg with
                             | ClientMessage.Event event =>
                                 set_events_as_sent [Event.id event]
                             | _ => ret tt
                             end) st in
      let outs := map (fun p => relay_send_msg drv (fst p) msg wait)
                    (matched (relays st) roles) in
      ((let? _ := join_all outs in
        if sent_to_at_least_one_relay outs then Ok tt else Err Error.MsgNotSent),
       st1, tr1 ++ map (fun p => Action.SendMsg (fst p) msg)
                   (matched (relays st) roles)).
Proof.
  unfold send_msg. unfold bind at 1. unfold get_state.
  destruct (is_empty (relays st)) eqn:He; [reflexivity|].
  rewrite fan_out_shape.
  destruct msg; [unfold set_events_as_sent; destruct (channel_closed st) | | |];
    reflexivity.
Qed.

Lemma batch_msg_unfold (drv : RelayDriver) (msgs : list ClientMessage.t)
  (roles : list RelayRole) (wait : option Duration) (st : PoolState) :
  batch_msg drv msgs roles wait st
  = if is_empty (relays st) then (Err Error.NoRelays, st, [])
    else
      let outs := map (fun p => relay_batch_msg drv (fst p) msgs wait)
                    (matched (relays st) roles) in
      ((let? _ := join_all outs in
        if sent_to_at_least_one_relay outs then Ok tt else Err Error.MsgNotSent),
       marker_state st (event_ids_of msgs),
       marker_action st (event_ids_of msgs)
       :: map (fun p => Action.BatchMsg (fst p) msgs) (matched (relays st) roles)).
Proof.
  unfold batch_msg. unfold bind at 1. unfold get_state.
  destruct (is_empty (relays st)) eqn:He; [reflexivity|].
  rewrite fan_out_shape, set_events_as_sent_spec. reflexivity.
Qed.

Lemma send_event_unfold (drv : RelayDriver) (event : Event.t)
  (roles : list RelayRole) (opts : RelaySendOptions) (st : PoolState) :
  send_event drv event roles opts st
  = if is_empty (relays st) then (Err Error.NoRelays, st, [])
    else
      let outs := map (fun p => relay_send_event drv (fst p) event opts)
                    (matched (relays st) roles) in
      ((let? _ := join_all outs in
        if sent_to_at_least_one_relay outs then Ok (Event.id event)
        else Err (Error.EventNotPublished (Event.id event))),
       marker_state st [Event.id event],
       marker_action st [Event.id event]
       :: map (fun p => Action.SendEvent (fst p) event) (matched (relays st) roles)).
Proof.
  unfold send_event. unfold bind at 1. unfold get_state.
  destruct (is_empty (relays st)) eqn:He; [reflexivity|].
  cbv zeta. rewrite fan_out_shape, set_events_as_sent_spec. reflexivity.
Qed.

Lemma batch_event_unfold (drv : RelayDriver) (evs : list Event.t)
  (roles : list RelayRole) (opts : RelaySendOptions) (st : PoolState) :
  batch_event drv evs roles opts st
  = if is_empty (relays st) then (Err Error.NoRelays, st, [])
    else
      let outs := map (fun p => relay_batch_event drv (fst p) evs opts)
                    (matched (relays st) roles) in
      ((let? _ := join_all outs in
        if sent_to_at_least_one_relay outs then Ok tt
        else Err Error.EventsNotPublished),
       marker_state st (map Event.id evs),
       marker_action st (map Event.id evs)
       :: map (fun p => Action.BatchEvent (fst p) evs) (matched (relays st) roles)).
Proof.
  unfold batch_event. unfold bind at 1. unfold get_state.
  destruct (is_empty (relays st)) eqn:He; [reflexivity|].
  rewrite fan_out_shape, set_events_as_sent_spec. reflexivity.
Qed.

Lemma send_msg_result (drv : RelayDriver) (msg : ClientMessage.t)
  (roles : list RelayRole) (wait : option Duration) (st : PoolState) :
  relays st <> [] ->
  result_of (send_msg drv msg roles wait st)
  = (let outs := map (fun p => relay_send_msg drv (fst p) msg wait)
                   (matched (relays st) roles) in
     let? _ := join_all outs in
     if sent_to_at_least_one_relay outs then Ok tt else Err Error.MsgNotSent).
Proof.
  intros Hne. rewrite send_msg_unfold, (is_empty_false _ Hne).
  destruct msg; [rewrite set_events_as_sent_spec | | |]; reflexivity.
Qed.

Lemma none_in_outs {A} (rs : list (Url * RelayRole)) (roles : list RelayRole)
  (f : Url -> option (result A Error.t)) :
  (exists url role, In (url, role) (matched rs roles) /\ f url = None)
  <-> In None (map (fun p => f (fst p)) (matched rs roles)).
Proof. rewrite in_outs. reflexivity. Qed.

Lemma ok_in_outs {A} (rs : list (Url * RelayRole)) (roles : list RelayRole)
  (f : Url -> option (result A Error.t)) :
  (exists r, In (Some (Ok r)) (map (fun p => f (fst p)) (matched rs roles)))
  <-> exists url role r, In (url, role) (matched rs roles) /\ f url = Some (Ok r).
Proof.
  split.
  - intros [r Hin]. apply in_outs in Hin. destruct Hin as [url [role [Hin Hf]]].
    exists url, role, r. split; assumption.
  - intros [url [role [r [Hin Hf]]]]. exists r. apply in_outs.
    exists url, role. split; assumption.
Qed.

(** C3: On an empty registry [send_msg] and [send_event] return [NoRelays].
    Otherwise, when the relay call of some spawned task panics, the join
    of that task makes the call return a [Thread] error; when every task
    joins, the call succeeds iff at least one relay call returned [Ok],
    and fails with [MsgNotSent], resp. [EventNotPublished] carrying the
    event ID, otherwise; [send_event] returns the event ID on success. *)
Theorem send_msg_send_event_verdict (drv : RelayDriver) (st : PoolState)
  (msg : ClientMessage.t) (event : Event.t) (roles : list RelayRole)
  (wait : option Duration) (opts : RelaySendOptions) :
  (relays st = [] ->
   result_of (send_msg drv msg roles wait st) = Err Error.NoRelays /\
   result_of (send_event drv event roles opts st) = Err Error.NoRelays) /\
  (relays st <> [] ->
   ((exists url role, In (url, role) (matched (relays st) roles) /\
                      relay_send_msg drv url msg wait = None) ->
    result_of (send_msg drv msg roles wait st)
    = Err (Error.Thread "task failed to join")) /\
   ((forall url role, In (url, role) (matched (relays st) roles) ->
                      relay_send_msg drv url msg wait <> None) ->
    (result_of (send_msg drv msg roles wait st) = Ok tt <->
     exists url role, In (url, role) (matched (relays st) roles) /\
                      relay_send_msg drv url msg wait = Some (Ok tt)) /\
    (result_of (send_msg drv msg roles wait st) <> Ok tt ->
     result_of (send_msg drv msg roles wait st) = Err Error.MsgNotSent)) /\
   ((exists url role, In (url, role) (matched (relays st) roles) /\
                      relay_send_event drv url event opts = None) ->
    result_of (send_event drv event roles opts st)
    = Err (Error.Thread "task failed to join")) /\
   ((forall url role, In (url, role) (matched (relays st) roles) ->
                      relay_send_event drv url event opts <> None) ->
    (result_of (send_event drv event roles opts st) = Ok (Event.id event) <->
     exists url role r, In (url, role) (matched (relays st) roles) /\
                        relay_send_event drv url event opts = Some (Ok r)) /\
    (result_of (send_event drv event roles opts st) <> Ok (Event.id event) ->
     result_of (send_event drv event roles opts st)
     = Err (Error.EventNotPublished (Event.id event))))).
Proof.
  split.
  - intros Hnil. rewrite send_msg_unfold, send_event_unfold, Hnil.
    split; reflexivity.
  - intros Hne.
    assert (Hev : result_of (send_event drv event roles opts st)
                  = (let outs := map (fun p => relay_send_event drv (fst p) event opts)
                                   (matched (relays st) roles) in
                     let? _ := join_all outs in
                     if sent_to_at_least_one_relay outs then Ok (Event.id event)
                     else Err (Error.EventNotPublished (Event.id event)))).
    { rewrite send_event_unfold, (is_empty_false _ Hne). reflexivity. }
    rewrite (send_msg_result drv msg roles wait st Hne), Hev. clear Hev.
    set (outs_m := map (fun p => relay_send_msg drv (fst p) msg wait)
                     (matched (relays st) roles)).
    set (outs_e := map (fun p => relay_send_event drv (fst p) event opts)
                     (matched (relays st) roles)).
    destruct (fan_out_verdict outs_m tt Error.MsgNotSent) as [Hm1 Hm2].
    destruct (fan_out_verdict outs_e (Event.id event)
                (Error.EventNotPublished (Event.id event))) as [He1 He2].
    simpl in Hm1, Hm2, He1, He2.
    split; [|split; [|split]].
    + intros H. apply Hm1. unfold outs_m.
      exact (proj1 (none_in_outs _ _ (fun url => relay_send_msg drv url msg wait)) H).
    + intros Hall.
      assert (Hn : ~ In None outs_m).
      { intros Hin.
        destruct (proj2 (none_in_outs _ _ (fun url => relay_send_msg drv url msg wait)) Hin)
          as [url [role [Hin' Hf]]]. exact (Hall url role Hin' Hf). }
      destruct (Hm2 Hn) as [Hiff Hns]. split; [|exact Hns].
      rewrite Hiff. unfold outs_m.
      rewrite (ok_in_outs _ _ (fun url => relay_send_msg drv url msg wait)). split.
      * intros [url [role [[] [Hin Hf]]]]. exists url, role. split; assumption.
      * intros [url [role [Hin Hf]]]. exists url, role, tt. split; assumption.
    + intros H. apply He1. unfold outs_e.
      exact (proj1 (none_in_outs _ _ (fun url => relay_send_event drv url event opts)) H).
    + intros Hall.
      assert (Hn : ~ In None outs_e).
      { intros Hin.
        destruct (proj2 (none_in_outs _ _ (fun url => relay_send_event drv url event opts)) Hin)
          as [url [role [Hin' Hf]]]. exact (Hall url role Hin' Hf). }
      destruct (He2 Hn) as [Hiff Hns]. split; [|exact Hns].
      rewrite Hiff. unfold outs_e.
      exact (ok_in_outs _ _ (fun url => relay_send_event drv url event opts)).
Qed.

(** C3, counterexample: relay [a] accepts the message but the call of
    relay [b] panics; [send_msg] returns a [Thread] error although one
    relay send succeeded. *)
Lemma send_msg_verdict_counterexample :
  relay_send_msg stub_driver "wss://a"%string (ClientMessage.Event stub_event) None
  = Some (Ok tt) /\
  result_of (send_msg stub_driver (ClientMessage.Event stub_event)
               [Write; ReadWrite] None two_relays)
  = Err (Error.Thread "task failed to join"%string).
Proof. split; vm_compute; reflexivity. Qed.

(** C6: On a non-empty registry where every spawned [batch_msg] task's relay
    call returns an error, [RelayPool::batch_msg] returns [MsgNotSent]
    (the singular variant), not [MsgsNotSent]. *)
Theorem batch_msg_none_accepted (drv : RelayDriver) (st : PoolState)
  (msgs : list ClientMessage.t) (roles : list RelayRole)
  (wait : option Duration) :
  relays st <> [] ->
  (forall url role, In (url, role) (matched (relays st) roles) ->
     exists e, relay_batch_msg drv url msgs wait = Some (Err e)) ->
  result_of (batch_msg drv msgs roles wait st) = Err Error.MsgNotSent /\
  result_of (batch_msg drv msgs roles wait st) <> Err Error.MsgsNotSent.
Proof.
  intros Hne Hfail.
  assert (H : result_of (batch_msg drv msgs roles wait st) = Err Error.MsgNotSent).
  { rewrite batch_msg_unfold, (is_empty_false _ Hne). simpl.
    set (outs := map (fun p => relay_batch_msg drv (fst p) msgs wait)
                   (matched (relays st) roles)).
    destruct (fan_out_verdict outs tt Error.MsgNotSent) as [_ H2].
    simpl in H2.
    assert (Hn : ~ In None outs).
    { intros Hin.
      destruct (proj2 (none_in_outs _ _ (fun url => relay_batch_msg drv url msgs wait)) Hin)
        as [url [role [Hin' Hf]]].
      destruct (Hfail url role Hin') as [e He]. congruence. }
    destruct (H2 Hn) as [Hiff Hns]. apply Hns.
    rewrite Hiff. intros Hex. unfold outs in Hex.
    destruct (proj1 (ok_in_outs _ _ (fun url => relay_batch_msg drv url msgs wait)) Hex)
      as [url [role [r [Hin Hf]]]].
    destruct (Hfail url role Hin) as [e He]. congruence. }
  split; [exact H|]. rewrite H. discriminate.
Qed.

Lemma marker_state_channel (st : PoolState) (ids : list EventId) :
  channel (marker_state st ids)
  = if channel_closed st then channel st
    else channel st ++ [RelayPoolMessage.BatchEvent ids].
Proof. unfold marker_state. destruct (channel_closed st); reflexivity. Qed.

Ltac marker_case :=
  match goal with
  | |- context [if is_empty ?l then _ else _] => destruct (is_empty l)
  end;
  [split; reflexivity | split; [reflexivity | apply marker_state_channel]].

(** C5: Every publishing operation whose payload carries events performs, as
    its first effect, the attempt to enqueue the [BatchEvent] marker with
    the events' IDs, and after it exactly one relay send per relay it
    targets (every relay of an accepted role for the fan-outs, the named
    relay for [send_msg_to] and [send_event_to]), whether or not the
    channel's receiver is closed.  The marker is then in the aggregator
    channel while the receiver is open; after a [Shutdown] closed it, the
    enqueue fails and the relay sends still run.  An operation with no
    relay, or whose relay is not found, has no effect. *)
Theorem marker_before_relay_sends (drv : RelayDriver) (st : PoolState)
  (event : Event.t) (evs : list Event.t) (msgs : list ClientMessage.t)
  (roles : list RelayRole) (wait : option Duration)
  (opts : RelaySendOptions) (url : Url) :
  marker_first st [Event.id event] (is_empty (relays st))
    (map (fun p => Action.SendMsg (fst p) (ClientMessage.Event event))
       (matched (relays st) roles))
    (send_msg drv (ClientMessage.Event event) roles wait st) /\
  marker_first st (event_ids_of msgs) (is_empty (relays st))
    (map (fun p => Action.BatchMsg (fst p) msgs) (matched (relays st) roles))
    (batch_msg drv msgs roles wait st) /\
  marker_first st [Event.id event] (is_empty (relays st))
    (map (fun p => Action.SendEvent (fst p) event) (matched (relays st) roles))
    (send_event drv event roles opts st) /\
  marker_first st (map Event.id evs) (is_empty (relays st))
    (map (fun p => Action.BatchEvent (fst p) evs) (matched (relays st) roles))
    (batch_event drv evs roles opts st) /\
  marker_first st [Event.id event] (relay_missing url st)
    [Action.SendMsg url (ClientMessage.Event event)]
    (send_msg_to drv url (ClientMessage.Event event) wait st) /\
  marker_first st [Event.id event] (relay_missing url st)
    [Action.SendEvent url event]
    (send_event_to drv url event opts st).
Proof.
  split; [|split; [|split; [|split; [|split]]]].
  - rewrite send_msg_unfold, set_events_as_sent_spec. marker_case.
  - rewrite batch_msg_unfold. marker_case.
  - rewrite send_event_unfold. marker_case.
  - rewrite batch_event_unfold. marker_case.
  - unfold send_msg_to, relay_missing, bind, get_state.
    destruct (find_relay url (relays st)); [|split; reflexivity].
    rewrite set_events_as_sent_spec.
    split; [reflexivity | apply marker_state_channel].
  - unfold send_event_to, relay_missing, bind, get_state.
    destruct (find_relay url (relays st)); [|split; reflexivity].
    rewrite set_events_as_sent_spec.
    split; [reflexivity | apply marker_state_channel].
Qed.

(** C5, counterexample: after a [Shutdown] closed the receiver,
    [send_event] to a registered relay invokes the relay send although the
    [BatchEvent] marker never entered the channel. *)
Lemma marker_not_enqueued_counterexample :
  let '(_, st', tr) := send_event stub_driver stub_event [Write] None
                         one_relay_closed in
  tr = [Action.EnqueueFailed (RelayPoolMessage.BatchEvent [1%N]);
        Action.SendEvent "wss://a"%string stub_event] /\
  ~ In (RelayPoolMessage.BatchEvent [1%N]) (channel st').
Proof. vm_compute. split; [reflexivity | intros []]. Qed.

Lemma subscribe_each_spec (rs : list (Url * RelayRole)) (fs : list Filter)
  (wait : option Duration) (st : PoolState) :
  subscribe_each rs fs wait st
  = (tt, st, map (fun p => Action.SubscribeWithInternalId (fst p) Pool fs wait) rs).
Proof.
  induction rs as [|[url role] rest IH]; [reflexivity|].
  simpl. unfold bind, emit. rewrite IH. reflexivity.
Qed.

(** C9: [connect_relay] pushes the stored filter set to the relay under the
    [Pool] identity and only then connects it; [subscribe] stores the new
    filter set before any relay subscription, so a relay added and
    connected after [subscribe fs] is given [fs] under [Pool] before its
    connect. *)
Theorem connect_relay_replays_filters (st : PoolState) (fs : list Filter)
  (wait : option Duration) (url : Url) (role : RelayRole)
  (wait_for_connection : bool) :
  connect_relay url wait_for_connection st
  = (tt, st, [Action.UpdateSubscriptionFilters url Pool (filters st);
              Action.Connect url wait_for_connection]) /\
  (let '(_, st1, tr1) := subscribe fs wait st in
   tr1 = Action.StoreFilters fs
         :: map (fun p => Action.SubscribeWithInternalId (fst p) Pool fs wait)
              (relays st) /\
   filters st1 = fs /\
   (let '(_, st2, _) := add_relay url role st1 in
    connect_relay url wait_for_connection st2
    = (tt, st2, [Action.UpdateSubscriptionFilters url Pool fs;
                 Action.Connect url wait_for_connection]))).
Proof.
  split; [reflexivity|].
  unfold subscribe, bind at 1, get_state.
  unfold bind, update_subscription_filters.
  rewrite subscribe_each_spec. simpl.
  split; [reflexivity|]. split; [reflexivity|].
  unfold add_relay. simpl.
  destruct (find_relay url (relays st)); reflexivity.
Qed.

(* ------------------------------------------------------------------ *)
(** ** Instances of the theorems on concrete inputs *)

Section Witnesses.
Local Open Scope string_scope.

Lemma rejected_frame_no_effect_witness :
  frame_rejected stub_codec (RawRelayMessage.Event "sub" "not json") /\
  step stub_codec 10 empty_task
    (RelayPoolMessage.ReceivedMsg "wss://a" (RawRelayMessage.Event "sub" "not json"))
  = Some (empty_task, [], Continue).
Proof.
  assert (H : frame_rejected stub_codec (RawRelayMessage.Event "sub" "not json")).
  { left. eexists. vm_compute. reflexivity. }
  split; [exact H|].
  exact (proj2 (rejected_frame_no_effect stub_codec 10 empty_task "wss://a" _ H)).
Defined.

Lemma add_event_spec_witness :
  ~ In 3%N [1%N; 2%N] /\ 1 <= 2 /\
  add_event 2 [1%N; 2%N] 3%N
  = Some (true, push_back (skipn (length [1%N; 2%N] - (2 - 1)) [1%N; 2%N]) 3%N).
Proof.
  assert (Hn : ~ In 3%N [1%N; 2%N]) by (simpl; intros [H|[H|[]]]; discriminate).
  assert (Hm : 1 <= 2) by lia.
  split; [exact Hn|]. split; [exact Hm|].
  exact (proj1 (proj2 (add_event_spec 2 [1%N; 2%N] 3%N)) Hn Hm).
Defined.

Lemma send_msg_send_event_verdict_witness :
  relays one_relay <> [] /\
  (result_of (send_msg stub_driver (ClientMessage.Event stub_event) [Write] None
                one_relay) = Ok tt <->
   exists url role, In (url, role) (matched (relays one_relay) [Write]) /\
     relay_send_msg stub_driver url (ClientMessage.Event stub_event) None
     = Some (Ok tt)).
Proof.
  assert (Hne : relays one_relay <> []) by discriminate.
  assert (Hall : forall url role, In (url, role) (matched (relays one_relay) [Write]) ->
            relay_send_msg stub_driver url (ClientMessage.Event stub_event) None <> None).
  { simpl. intros url role [H|[]]. injection H as <- <-. vm_compute. discriminate. }
  split; [exact Hne|].
  exact (proj1 (proj1 (proj2 (proj2 (send_msg_send_event_verdict stub_driver one_relay
           (ClientMessage.Event stub_event) stub_event [Write] None None) Hne)) Hall)).
Defined.

Lemma first_seen_rule_witness :
  (exists ns_mid,
     [RelayPoolNotification.Message "wss://a" (RelayMessage.Event "sub" stub_event);
      RelayPoolNotification.Event "wss://a" stub_event]
     = RelayPoolNotification.Message "wss://a" (RelayMessage.Event "sub" stub_event)
       :: RelayPoolNotification.Event "wss://a" stub_event :: ns_mid) /\
  event_notifications_for (Event.id stub_event)
    ([RelayPoolNotification.Message "wss://a" (RelayMessage.Event "sub" stub_event);
      RelayPoolNotification.Event "wss://a" stub_event] ++
     [RelayPoolNotification.Message "wss://b" (RelayMessage.Event "sub" stub_event)])%list
  = [RelayPoolNotification.Event "wss://a" stub_event] /\
  Continue = Continue.
Proof.
  apply (proj2 (first_seen_rule stub_codec 2) empty_task
           (set_events empty_task [1%N]) (set_events empty_task [1%N])
           "wss://a" "wss://b"
           (RawRelayMessage.Event "sub" "e1") (RawRelayMessage.Event "sub" "e1")
           "sub" "sub" stub_event stub_event []).
  - vm_compute. reflexivity.
  - vm_compute. reflexivity.
  - reflexivity.
  - simpl. intros [].
  - intros url raw sid ev [].
  - vm_compute. reflexivity.
  - simpl. left. reflexivity.
  - vm_compute. reflexivity.
Defined.

Lemma batch_msg_none_accepted_witness :
  relays one_relay <> [] /\
  result_of (batch_msg stub_driver [ClientMessage.Event stub_event] [Write] None
               one_relay) = Err Error.MsgNotSent.
Proof.
  assert (Hne : relays one_relay <> []) by discriminate.
  split; [exact Hne|].
  apply (batch_msg_none_accepted stub_driver one_relay
           [ClientMessage.Event stub_event] [Write] None Hne).
  intros url role _. eexists. reflexivity.
Defined.

Lemma cache_ops_terminate_witness :
  1 <= 2 /\
  evict_loop (S (length [1%N; 2%N; 3%N])) 2 [1%N; 2%N; 3%N]
  = Some (skipn (length [1%N; 2%N; 3%N] - (2 - 1)) [1%N; 2%N; 3%N]).
Proof.
  assert (Hm : 1 <= 2) by lia.
  split; [exact Hm|].
  exact (proj1 (cache_ops_terminate 2 [1%N; 2%N; 3%N] 4%N [5%N; 6%N] Hm)).
Defined.

End Witnesses.

(* ================================================================== *)
(** * Further properties of the code *)

(** ** Kind conversions of the bindings *)

(** The bindings' kinds survive the trip to [nostr::Kind] and back. *)
Theorem kind_ffi_round_trip (k : FfiKind.t) :
  FfiKind.from_nostr (FfiKind.into_nostr k) = k.
Proof. destruct k; reflexivity. Qed.

(** A [nostr::Kind] survives the trip through the bindings, except the
    deprecated [Zap], which comes back as [ZapReceipt]: the two are not
    told apart by the bindings. *)
Theorem kind_nostr_round_trip (k : NostrKind.t) :
  FfiKind.into_nostr (FfiKind.from_nostr k)
  = match k with NostrKind.Zap => NostrKind.ZapReceipt | _ => k end /\
  FfiKind.from_nostr NostrKind.Zap = FfiKind.from_nostr NostrKind.ZapReceipt.
Proof. split; [destruct k|]; reflexivity. Qed.

(** ** Gift wraps *)

Lemma extract_rumor_gift_wrap (env : Nip59Env) (keys : string) (gift_wrap : Event.t) :
  Event.kind gift_wrap = GIFT_WRAP_KIND ->
  extract_rumor env keys gift_wrap
  = match keys_secret_key env keys with
    | Err e => Err (Nip59Error.Key e)
    | Ok secret_key =>
        match extract_first_public_key env gift_wrap with
        | None => Err Nip59Error.ReceiverPubkeyNotFound
        | Some receiver =>
            match nip44_decrypt env secret_key receiver (Event.content gift_wrap) with
            | Err e => Err (Nip59Error.NIP44 e)
            | Ok seal =>
                match event_from_json env seal with
                | Err e => Err (Nip59Error.Event e)
                | Ok seal =>
                    match nip44_decrypt env secret_key receiver (Event.content seal) with
                    | Err e => Err (Nip59Error.NIP44 e)
                    | Ok rumor =>
                        match unsigned_event_from_json env rumor with
                        | Err e => Err (Nip59Error.Unsigned e)
                        | Ok rumor => Ok rumor
                        end
                    end
                end
            end
        end
    end.
Proof.
  intros Hk. unfold extract_rumor. rewrite Hk, N.eqb_refl. reflexivity.
Qed.

(** An event that is not a gift wrap is refused with [NotGiftWrap]
    before the keys are asked for their secret key. *)
Theorem extract_rumor_not_gift_wrap (env : Nip59Env) (keys : string)
  (gift_wrap : Event.t) :
  Event.kind gift_wrap <> GIFT_WRAP_KIND ->
  extract_rumor env keys gift_wrap = Err Nip59Error.NotGiftWrap.
Proof.
  intros Hk. unfold extract_rumor. apply N.eqb_neq in Hk. rewrite Hk. reflexivity.
Qed.

(** On a gift wrap, keys without a secret key give the [Key] error, and
    a gift wrap without a [PubKey] tag gives [ReceiverPubkeyNotFound],
    before anything is decrypted. *)
Theorem extract_rumor_early_errors (env : Nip59Env) (keys : string)
  (gift_wrap : Event.t) :
  Event.kind gift_wrap = GIFT_WRAP_KIND ->
  (forall e, keys_secret_key env keys = Err e ->
     extract_rumor env keys gift_wrap = Err (Nip59Error.Key e)) /\
  (forall secret_key, keys_secret_key env keys = Ok secret_key ->
     extract_first_public_key env gift_wrap = None ->
     extract_rumor env keys gift_wrap = Err Nip59Error.ReceiverPubkeyNotFound).
Proof.
  intros Hk. rewrite (extract_rumor_gift_wrap env keys gift_wrap Hk). split.
  - intros e H. rewrite H. reflexivity.
  - intros sk H1 H2. rewrite H1, H2. reflexivity.
Qed.

(** A rumor is extracted exactly when the event is a gift wrap, the keys
    hold a secret key, the gift wrap has a receiver, and both layers
    decrypt and parse; both decryptions use the secret key with the
    receiver taken from the gift wrap's first [PubKey] tag. *)
Theorem extract_rumor_ok (env : Nip59Env) (keys : string) (gift_wrap : Event.t)
  (rumor : UnsignedEvent) :
  extract_rumor env keys gift_wrap = Ok rumor <->
  Event.kind gift_wrap = GIFT_WRAP_KIND /\
  exists secret_key receiver seal_json seal rumor_json,
    keys_secret_key env keys = Ok secret_key /\
    extract_first_public_key env gift_wrap = Some receiver /\
    nip44_decrypt env secret_key receiver (Event.content gift_wrap) = Ok seal_json /\
    event_from_json env seal_json = Ok seal /\
    nip44_decrypt env secret_key receiver (Event.content seal) = Ok rumor_json /\
    unsigned_event_from_json env rumor_json = Ok rumor.
Proof.
  split.
  - intros H.
    destruct (N.eqb (Event.kind gift_wrap) GIFT_WRAP_KIND) eqn:Hk.
    2:{ apply N.eqb_neq in Hk.
        rewrite (extract_rumor_not_gift_wrap env keys gift_wrap Hk) in H. discriminate. }
    apply N.eqb_eq in Hk. rewrite (extract_rumor_gift_wrap env keys gift_wrap Hk) in H.
    split; [exact Hk|].
    destruct (keys_secret_key env keys) as [sk|e] eqn:H1; [|discriminate].
    destruct (extract_first_public_key env gift_wrap) as [rc|] eqn:H2; [|discriminate].
    destruct (nip44_decrypt env sk rc (Event.content gift_wrap)) as [sj|e] eqn:H3;
      [|discriminate].
    destruct (event_from_json env sj) as [seal|e] eqn:H4; [|discriminate].
    destruct (nip44_decrypt env sk rc (Event.content seal)) as [rj|e] eqn:H5;
      [|discriminate].
    destruct (unsigned_event_from_json env rj) as [r|e] eqn:H6; [|discriminate].
    injection H as <-. exists sk, rc, sj, seal, rj. repeat split; assumption.
  - intros [Hk (sk & rc & sj & seal & rj & H1 & H2 & H3 & H4 & H5 & H6)].
    rewrite (extract_rumor_gift_wrap env keys gift_wrap Hk).
    rewrite H1, H2, H3, H4, H5, H6. reflexivity.
Qed.

(** [extract_first_public_key] gives [None] exactly when no tag is a
    [PubKey] tag, and otherwise the key of the first one. *)
Theorem extract_first_public_key_first (env : Nip59Env) (event : Event.t) :
  (extract_first_public_key env event = None <->
   Forall (fun tag => tag_public_key env tag = None) (Event.tags event)) /\
  (forall public_key,
     extract_first_public_key env event = Some public_key <->
     exists pre tag post,
       Event.tags event = pre ++ tag :: post /\
       Forall (fun t => tag_public_key env t = None) pre /\
       tag_public_key env tag = Some public_key).
Proof.
  unfold extract_first_public_key. generalize (Event.tags event) as tags.
  induction tags as [|t rest IH]; simpl.
  - split; [split; auto|].
    intros pk. split; [discriminate|].
    intros (pre & tag & post & Heq & _). destruct pre; discriminate.
  - destruct (tag_public_key env t) as [pk0|] eqn:Ht.
    + split.
      * split; [discriminate|]. intros HF. inversion HF; congruence.
      * intros pk. split.
        -- intros [= <-]. exists [], t, rest. auto.
        -- intros (pre & tag & post & Heq & HF & Htag).
           destruct pre as [|p pre']; simpl in Heq; injection Heq as -> ->.
           ++ congruence.
           ++ inversion HF; congruence.
    + destruct IH as [IH1 IH2]. split.
      * rewrite IH1. split; [intros H; constructor; assumption|].
        intros HF. inversion HF; assumption.
      * intros pk. rewrite IH2. split.
        -- intros (pre & tag & post & Heq & HF & Htag).
           exists (t :: pre), tag, post. rewrite Heq. auto.
        -- intros (pre & tag & post & Heq & HF & Htag).
           destruct pre as [|p pre']; simpl in Heq; injection Heq as -> ->.
           ++ congruence.
           ++ exists pre', tag, post. inversion HF. auto.
Qed.

(** ** Inbound frames *)

(** An event frame is accepted exactly when its partial event decodes,
    its signature verifies, its remaining fields decode, the merged event
    is not expired and its ID verifies; the message carries the merged
    event. *)
Theorem handle_relay_message_event_ok (codec : EventCodec) (sid json : string)
  (m : RelayMessage.t) :
  handle_relay_message codec (RawRelayMessage.Event sid json) = Ok m <->
  exists partial missing,
    partial_event_from_json codec json = Ok partial /\
    verify_signature codec partial = Ok tt /\
    missing_partial_event_from_json codec json = Ok missing /\
    is_expired codec (merge partial missing) = false /\
    verify_id codec (merge partial missing) = Ok tt /\
    m = RelayMessage.Event sid (merge partial missing).
Proof.
  simpl. split.
  - destruct (partial_event_from_json codec json) as [p|e] eqn:H1; [|discriminate].
    destruct (verify_signature codec p) as [[]|e] eqn:H2; [|discriminate].
    destruct (missing_partial_event_from_json codec json) as [ms|e] eqn:H3;
      [|discriminate].
    destruct (is_expired codec (merge p ms)) eqn:H4; [discriminate|].
    destruct (verify_id codec (merge p ms)) as [[]|e] eqn:H5; [|discriminate].
    intros H. injection H as <-. exists p, ms. repeat split; assumption.
  - intros (p & ms & H1 & H2 & H3 & H4 & H5 & ->).
    rewrite H1, H2, H3, H4, H5. reflexivity.
Qed.

(** The checks of an event frame run in a fixed order: a bad signature
    is reported even when the remaining fields do not decode, and an
    expired event is reported as [EventExpired] whatever its ID check
    would say. *)
Theorem handle_relay_message_check_order (codec : EventCodec) (sid json : string)
  (partial : PartialEvent) :
  partial_event_from_json codec json = Ok partial ->
  (forall e, verify_signature codec partial = Err e ->
     handle_relay_message codec (RawRelayMessage.Event sid json) = Err e) /\
  (forall missing, verify_signature codec partial = Ok tt ->
     missing_partial_event_from_json codec json = Ok missing ->
     is_expired codec (merge partial missing) = true ->
     handle_relay_message codec (RawRelayMessage.Event sid json) = Err Error.EventExpired).
Proof.
  intros H1. simpl. rewrite H1. split.
  - intros e H2. rewrite H2. reflexivity.
  - intros ms H2 H3 H4. rewrite H2, H3, H4. reflexivity.
Qed.

Lemma add_events_single (max_seen_events : nat) (events0 : Deque) (event_id : EventId) :
  1 <= max_seen_events ->
  exists q, add_events max_seen_events events0 [event_id] = Some q /\ In event_id q.
Proof.
  intros Hmax. unfold add_events. simpl.
  destruct (contains event_id events0) eqn:Hc; simpl.
  - exists events0. split; [reflexivity|]. now apply contains_In.
  - rewrite evict_some by exact Hmax. eexists. split; [reflexivity|].
    unfold push_back. apply in_or_app. right. now left.
Qed.

(** The marker [BatchEvent [id]] that the pool enqueues when it sends an
    event makes the aggregator treat the relay's echo of that event as
    already seen: the echo is reported as a relay message but not as a
    new event (with a cache of capacity at least one). *)
Theorem marker_suppresses_echo (codec : EventCodec) (max_seen_events : nat)
  (st : TaskState) (relay_url : Url) (raw : RawRelayMessage.t) (sid : string)
  (ev : Event.t) :
  1 <= max_seen_events ->
  handle_relay_message codec raw = Ok (RelayMessage.Event sid ev) ->
  exists st',
    run_msgs codec max_seen_events st
      [RelayPoolMessage.BatchEvent [Event.id ev];
       RelayPoolMessage.ReceivedMsg relay_url raw]
    = Some (st', [RelayPoolNotification.Message relay_url (RelayMessage.Event sid ev)], []).
Proof.
  intros Hmax Hh.
  destruct (add_events_single max_seen_events (events st) (Event.id ev) Hmax)
    as [q [Hq Hin]].
  assert (Ha : add_event max_seen_events q (Event.id ev) = Some (false, q)).
  { unfold add_event. rewrite (proj2 (contains_In _ _) Hin). reflexivity. }
  assert (Hb : step codec max_seen_events st (RelayPoolMessage.BatchEvent [Event.id ev])
               = Some (set_events st q, [], Continue)).
  { unfold step. rewrite Hq. reflexivity. }
  exists (set_events (set_events st q) q).
  cbn [run_msgs]. rewrite Hb.
  rewrite (step_event_frame codec max_seen_events (set_events st q) relay_url raw
             sid ev false q Hh Ha).
  reflexivity.
Qed.

(** ** The seen-event cache *)

(** The cache is a FIFO queue: admitting an ID only drops IDs from its
    front and appends the ID when it is new. *)
Theorem add_event_fifo (max_seen_events : nat) (events0 : Deque)
  (event_id : EventId) (b : bool) (events' : Deque) :
  add_event max_seen_events events0 event_id = Some (b, events') ->
  exists dropped, events0 ++ (if b then [event_id] else []) = dropped ++ events'.
Proof.
  unfold add_event. destruct (contains event_id events0) eqn:Hc.
  - intros [= <- <-]. exists []. now rewrite app_nil_r.
  - destruct max_seen_events as [|m].
    + rewrite (proj2 (evict_none_iff 0 events0) eq_refl). discriminate.
    + rewrite evict_some by lia. intros [= <- <-].
      exists (firstn (length events0 - (S m - 1)) events0).
      unfold push_back. rewrite app_assoc, firstn_skipn. reflexivity.
Qed.

(** Admitting a new ID into a cache within its capacity grows it by one
    until it is full, then keeps it full. *)
Theorem add_event_new_length (max_seen_events : nat) (events0 : Deque)
  (event_id : EventId) :
  1 <= max_seen_events -> length events0 <= max_seen_events ->
  ~ In event_id events0 ->
  exists events', add_event max_seen_events events0 event_id = Some (true, events') /\
    length events' = Nat.min (S (length events0)) max_seen_events.
Proof.
  intros Hmax Hlen Hn. unfold add_event.
  rewrite (proj2 (contains_false_not_In _ _) Hn), evict_some by exact Hmax.
  eexists. split; [reflexivity|].
  unfold push_back. rewrite length_app, length_skipn. simpl. destruct max_seen_events; lia.
Qed.

(** ** Relay registry *)

Lemma find_relay_app (url : Url) (rs : list (Url * RelayRole)) (p : Url * RelayRole) :
  find_relay url (rs ++ [p])
  = match find_relay url rs with
    | Some r => Some r
    | None => if String.eqb (fst p) url then Some (snd p) else None
    end.
Proof.
  destruct p as [k r]. unfold find_relay.
  induction rs as [|[k' r'] rs IH]; simpl.
  - destruct (String.eqb k url); reflexivity.
  - destruct (String.eqb k' url); [reflexivity|].
    rewrite IH. destruct (find (fun p0 => String.eqb (fst p0) url) rs); reflexivity.
Qed.

(** Adding a relay twice: the first call reports whether the URL was
    new, the second reports [false] and changes nothing, and the URL then
    keeps the role it was first added with. *)
Theorem add_relay_idempotent (url : Url) (role role' : RelayRole) (st : PoolState) :
  let '(r1, st1, tr1) := add_relay url role st in
  let '(r2, st2, tr2) := add_relay url role' st1 in
  r1 = Ok (match find_relay url (relays st) with Some _ => false | None => true end) /\
  find_relay url (relays st1)
  = Some (match find_relay url (relays st) with Some r => r | None => role end) /\
  r2 = Ok false /\ st2 = st1 /\ tr1 = [] /\ tr2 = [].
Proof.
  unfold add_relay. destruct (find_relay url (relays st)) as [r|] eqn:Hf.
  - cbv beta iota zeta. rewrite Hf. repeat split.
  - assert (Hf' : find_relay url (relays st ++ [(url, role)]) = Some role).
    { rewrite find_relay_app, Hf. simpl. now rewrite String.eqb_refl. }
    cbv beta iota zeta. cbn [relays]. rewrite Hf'. repeat split.
Qed.

Lemma find_relay_remove (url u : Url) (rs : list (Url * RelayRole)) :
  find_relay u (remove_url url rs)
  = if String.eqb u url then None else find_relay u rs.
Proof.
  unfold find_relay, remove_url. induction rs as [|[k r] rs IH]; simpl.
  - destruct (String.eqb u url); reflexivity.
  - destruct (String.eqb k url) eqn:Hk; simpl.
    + apply String.eqb_eq in Hk. subst k. rewrite IH.
      destruct (String.eqb u url) eqn:Hu; [reflexivity|].
      rewrite String.eqb_sym, Hu. reflexivity.
    + destruct (String.eqb k u) eqn:Hku; [|exact IH].
      apply String.eqb_eq in Hku. subst k. rewrite Hk. reflexivity.
Qed.

(** [remove_relay] takes the URL out of the registry whatever the
    relay's termination returns, and leaves the other relays, the stored
    filters and the channel alone; a URL that is not there gives [Ok]
    without any effect, one that is there gives the outcome of its
    termination. *)
Theorem remove_relay_spec (ctl : RelayControl) (url : Url) (st : PoolState) :
  let '(r, st', calls) := remove_relay ctl url st in
  (forall u, find_relay u (relays st')
             = if String.eqb u url then None else find_relay u (relays st)) /\
  filters st' = filters st /\ channel st' = channel st /\
  channel_closed st' = channel_closed st /\
  match find_relay url (relays st) with
  | None => r = Ok tt /\ st' = st /\ calls = []
  | Some _ => r = disconnect_relay ctl url /\ calls = [RelayCall.Terminate url]
  end.
Proof.
  unfold remove_relay. destruct (find_relay url (relays st)) as [role|] eqn:Hf.
  - simpl. repeat split.
    + intros u. apply find_relay_remove.
    + destruct (disconnect_relay ctl url) as [[]|e]; reflexivity.
  - repeat split. intros u. destruct (String.eqb u url) eqn:Hu; [|reflexivity].
    apply String.eqb_eq in Hu. subst u. exact Hf.
Qed.

(** ** Outbound edge cases *)

(** Sending to a URL that is not in the registry fails with
    [RelayNotFound] before anything is enqueued or sent. *)
Theorem send_to_unknown_relay (drv : RelayDriver) (url : Url) (msg : ClientMessage.t)
  (wait : option Duration) (event : Event.t) (opts : RelaySendOptions) (st : PoolState) :
  find_relay url (relays st) = None ->
  send_msg_to drv url msg wait st = (Some (Err Error.RelayNotFound), st, []) /\
  send_event_to drv url event opts st = (Some (Err Error.RelayNotFound), st, []).
Proof.
  intros Hf.
  cbv beta iota zeta delta [send_msg_to send_event_to bind get_state ret].
  rewrite Hf. split; reflexivity.
Qed.

(** When the registry is not empty but no relay has an accepted role,
    no relay is called and the sends fail with their not-sent errors;
    the only effect is the attempt to enqueue the marker, which enters
    the channel while its receiver is open and fails (only logged) once
    the receiver is closed. *)
Theorem fan_out_without_accepted_role (drv : RelayDriver) (event : Event.t)
  (evs : list Event.t) (roles : list RelayRole) (wait : option Duration)
  (opts : RelaySendOptions) (st : PoolState) :
  relays st <> [] -> matched (relays st) roles = [] ->
  send_msg drv (ClientMessage.Event event) roles wait st
  = (Err Error.MsgNotSent, marker_state st [Event.id event],
     [marker_action st [Event.id event]]) /\
  send_event drv event roles opts st
  = (Err (Error.EventNotPublished (Event.id event)), marker_state st [Event.id event],
     [marker_action st [Event.id event]]) /\
  batch_event drv evs roles opts st
  = (Err Error.EventsNotPublished, marker_state st (map Event.id evs),
     [marker_action st (map Event.id evs)]).
Proof.
  intros Hne Hm.
  rewrite send_msg_unfold, send_event_unfold, batch_event_unfold,
    (is_empty_false _ Hne), Hm, set_events_as_sent_spec.
  repeat split.
Qed.

(** [send_msg] with a message that is not [ClientMessage::Event] (an
    [AUTH] carrying an event included) enqueues no marker: the pool state
    is unchanged and the only effects are the relay sends. *)
Theorem send_msg_non_event_no_marker (drv : RelayDriver) (msg : ClientMessage.t)
  (roles : list RelayRole) (wait : option Duration) (st : PoolState) :
  (forall event, msg <> ClientMessage.Event event) ->
  let '(_, st', tr) := send_msg drv msg roles wait st in
  st' = st /\
  tr = map (fun p => Action.SendMsg (fst p) msg)
         (if is_empty (relays st) then [] else matched (relays st) roles).
Proof.
  intros Hm. rewrite send_msg_unfold.
  destruct msg as [event| | |]; [exfalso; exact (Hm event eq_refl) | | |];
    destruct (is_empty (relays st)); split; reflexivity.
Qed.

(** [unsubscribe] leaves the stored filters in place: after
    [subscribe fs] and [unsubscribe], connecting a relay pushes [fs] to it
    again. *)
Theorem unsubscribe_keeps_filters (fs : list Filter) (wait wait' : option Duration)
  (url : Url) (w : bool) (st : PoolState) :
  let '(_, st1, _) := subscribe fs wait st in
  let '(st2, calls) := unsubscribe wait' st1 in
  calls = map (fun p => RelayCall.UnsubscribeWithInternalId (fst p) Pool wait')
            (relays st) /\
  connect_relay url w st2
  = (tt, st2, [Action.UpdateSubscriptionFilters url Pool fs; Action.Connect url w]).
Proof.
  unfold subscribe, bind, get_state, update_subscription_filters. simpl.
  rewrite subscribe_each_spec. simpl. split; reflexivity.
Qed.

(** ** Relay control *)

Lemma call_each_ok (call : Url -> result unit Error.t) (mk : Url -> RelayCall.t)
  (rs : list (Url * RelayRole)) :
  (forall u r, In (u, r) rs -> call u = Ok tt) ->
  call_each call mk rs = (Ok tt, map (fun p => mk (fst p)) rs).
Proof.
  induction rs as [|[u r] rest IH]; intros H; [reflexivity|].
  simpl. rewrite (H u r (or_introl eq_refl)).
  rewrite IH by (intros u' r' Hin; exact (H u' r' (or_intror Hin))). reflexivity.
Qed.

Lemma call_each_err (call : Url -> result unit Error.t) (mk : Url -> RelayCall.t)
  (pre post : list (Url * RelayRole)) (url : Url) (role : RelayRole) (e : Error.t) :
  (forall u r, In (u, r) pre -> call u = Ok tt) -> call url = Err e ->
  call_each call mk (pre ++ (url, role) :: post)
  = (Err e, map (fun p => mk (fst p)) pre ++ [mk url]).
Proof.
  induction pre as [|[u r] rest IH]; intros H He; simpl.
  - rewrite He. reflexivity.
  - rewrite (H u r (or_introl eq_refl)).
    rewrite IH; [reflexivity | | exact He].
    intros u' r' Hin. exact (H u' r' (or_intror Hin)).
Qed.

(** [disconnect] stops at the first relay that fails to terminate: the
    relays after it are not terminated, the error is returned, and
    [shutdown] then spawns no task sending [Shutdown]. *)
Theorem disconnect_stops_at_first_failure (ctl : RelayControl) (st : PoolState)
  (pre post : list (Url * RelayRole)) (url : Url) (role : RelayRole) (e : Error.t) :
  relays st = pre ++ (url, role) :: post ->
  (forall u r, In (u, r) pre -> relay_terminate ctl u = Ok tt) ->
  relay_terminate ctl url = Err e ->
  disconnect ctl st
  = (Err e, map (fun p => RelayCall.Terminate (fst p)) pre ++ [RelayCall.Terminate url]) /\
  shutdown ctl st
  = (Err e, map (fun p => RelayCall.Terminate (fst p)) pre ++ [RelayCall.Terminate url],
     false).
Proof.
  intros Hrs Hpre He.
  assert (Hd : disconnect ctl st
               = (Err e, map (fun p => RelayCall.Terminate (fst p)) pre
                         ++ [RelayCall.Terminate url])).
  { unfold disconnect. rewrite Hrs. apply call_each_err.
    - intros u r Hin. unfold disconnect_relay. rewrite (Hpre u r Hin). reflexivity.
    - unfold disconnect_relay. rewrite He. reflexivity. }
  split; [exact Hd|]. unfold shutdown. rewrite Hd. reflexivity.
Qed.

(** When every relay stops, [stop] returns [Ok] and tries to send [Stop]
    to the aggregator; on a closed or full channel the message is dropped
    and the result is still [Ok]. *)
Theorem stop_after_relays_stopped (ctl : RelayControl) (task_channel_size : nat)
  (st : PoolState) :
  (forall u r, In (u, r) (relays st) -> relay_stop ctl u = Ok tt) ->
  let '(r, st', calls) := stop ctl task_channel_size st in
  r = Ok tt /\ calls = map (fun p => RelayCall.Stop (fst p)) (relays st) /\
  relays st' = relays st /\ filters st' = filters st /\
  channel st'
  = if channel_closed st || (task_channel_size <=? length (channel st))
    then channel st else channel st ++ [RelayPoolMessage.Stop].
Proof.
  intros H. unfold stop. rewrite (call_each_ok _ _ _ H).
  unfold try_send.
  destruct (channel_closed st || (task_channel_size <=? length (channel st)));
    repeat split.
Qed.

(** When a relay fails to stop, [stop] returns its error at once: the
    relays after it are not stopped and [Stop] is not sent. *)
Theorem stop_relay_failure (ctl : RelayControl) (task_channel_size : nat)
  (st : PoolState) (pre post : list (Url * RelayRole)) (url : Url)
  (role : RelayRole) (e : Error.t) :
  relays st = pre ++ (url, role) :: post ->
  (forall u r, In (u, r) pre -> relay_stop ctl u = Ok tt) ->
  relay_stop ctl url = Err e ->
  stop ctl task_channel_size st
  = (Err e, st, map (fun p => RelayCall.Stop (fst p)) pre ++ [RelayCall.Stop url]).
Proof.
  intros Hrs Hpre He. unfold stop. rewrite Hrs, (call_each_err _ _ _ _ _ _ _ Hpre He).
  reflexivity.
Qed.

(** [reconcilie] returns [Ok] whenever every task joins, whatever the
    relays answered (errors are only logged), also with no relay at all;
    a task that fails to join gives the [Thread] error. *)
Theorem reconcilie_result (ctl : RelayControl) (st : PoolState) :
  reconcilie ctl st
  = if forallb (fun p => match relay_reconcilie ctl (fst p) with
                         | None => false
                         | Some _ => true
                         end) (relays st)
    then Ok tt else Err (Error.Thread "task failed to join").
Proof.
  unfold reconcilie. induction (relays st) as [|p rs IH]; [reflexivity|].
  simpl. destruct (relay_reconcilie ctl (fst p)); [exact IH | reflexivity].
Qed.

Section ExtraWitnesses.
Local Open Scope string_scope.

Lemma extract_rumor_not_gift_wrap_witness :
  Event.kind (stub_wrap 1%N []) <> GIFT_WRAP_KIND /\
  extract_rumor stub_nip59 "npub" (stub_wrap 1%N []) = Err Nip59Error.NotGiftWrap.
Proof.
  assert (Hk : Event.kind (stub_wrap 1%N []) <> GIFT_WRAP_KIND) by (cbv; congruence).
  split; [exact Hk|].
  exact (extract_rumor_not_gift_wrap stub_nip59 "npub" (stub_wrap 1%N []) Hk).
Defined.

Lemma extract_rumor_early_errors_witness :
  Event.kind (stub_wrap 1059%N [["e"; "x"]]) = GIFT_WRAP_KIND /\
  extract_rumor stub_nip59 "npub" (stub_wrap 1059%N [["e"; "x"]])
  = Err (Nip59Error.Key "secret key missing") /\
  extract_rumor stub_nip59 "nsec" (stub_wrap 1059%N [["e"; "x"]])
  = Err Nip59Error.ReceiverPubkeyNotFound.
Proof.
  assert (Hk : Event.kind (stub_wrap 1059%N [["e"; "x"]]) = GIFT_WRAP_KIND) by reflexivity.
  split; [exact Hk|]. split.
  - apply (proj1 (extract_rumor_early_errors stub_nip59 "npub" _ Hk)). reflexivity.
  - apply (proj2 (extract_rumor_early_errors stub_nip59 "nsec" _ Hk) "sk");
      reflexivity.
Defined.

Lemma handle_relay_message_check_order_witness :
  partial_event_from_json expired_codec "x" = Ok (stub_partial 1%N) /\
  verify_id expired_codec (merge (stub_partial 1%N) stub_missing) <> Ok tt /\
  handle_relay_message expired_codec (RawRelayMessage.Event "sub" "x")
  = Err Error.EventExpired.
Proof.
  assert (H1 : partial_event_from_json expired_codec "x" = Ok (stub_partial 1%N))
    by reflexivity.
  split; [exact H1|]. split; [discriminate|].
  apply (proj2 (handle_relay_message_check_order expired_codec "sub" "x" _ H1)
           stub_missing); reflexivity.
Defined.

Lemma marker_suppresses_echo_witness :
  1 <= 1 /\
  handle_relay_message stub_codec (RawRelayMessage.Event "sub" "e1")
  = Ok (RelayMessage.Event "sub" stub_event) /\
  exists st',
    run_msgs stub_codec 1 empty_task
      [RelayPoolMessage.BatchEvent [Event.id stub_event];
       RelayPoolMessage.ReceivedMsg "wss://a" (RawRelayMessage.Event "sub" "e1")]
    = Some (st', [RelayPoolNotification.Message "wss://a"
                    (RelayMessage.Event "sub" stub_event)], []).
Proof.
  assert (Hm : 1 <= 1) by lia.
  assert (Hh : handle_relay_message stub_codec (RawRelayMessage.Event "sub" "e1")
               = Ok (RelayMessage.Event "sub" stub_event)) by reflexivity.
  split; [exact Hm|]. split; [exact Hh|].
  exact (marker_suppresses_echo stub_codec 1 empty_task "wss://a" _ "sub" stub_event Hm Hh).
Defined.

Lemma add_event_fifo_witness :
  add_event 2 [1%N; 2%N] 3%N = Some (true, [2%N; 3%N]) /\
  exists dropped, ([1%N; 2%N] ++ [3%N])%list = (dropped ++ [2%N; 3%N])%list.
Proof.
  assert (H : add_event 2 [1%N; 2%N] 3%N = Some (true, [2%N; 3%N])) by reflexivity.
  split; [exact H|]. exact (add_event_fifo 2 _ _ _ _ H).
Defined.

Lemma add_event_new_length_witness :
  1 <= 2 /\ length [1%N] <= 2 /\ ~ In 3%N [1%N] /\
  exists events', add_event 2 [1%N] 3%N = Some (true, events') /\
    length events' = 2.
Proof.
  assert (H1 : 1 <= 2) by lia.
  assert (H2 : length [1%N] <= 2) by (simpl; lia).
  assert (H3 : ~ In 3%N [1%N]) by (apply contains_false_not_In; reflexivity).
  split; [exact H1|]. split; [exact H2|]. split; [exact H3|].
  exact (add_event_new_length 2 [1%N] 3%N H1 H2 H3).
Defined.

Lemma send_to_unknown_relay_witness :
  find_relay "wss://c" (relays two_relays) = None /\
  send_msg_to stub_driver "wss://c" (ClientMessage.Event stub_event) None two_relays
  = (Some (Err Error.RelayNotFound), two_relays, []) /\
  send_event_to stub_driver "wss://c" stub_event None two_relays
  = (Some (Err Error.RelayNotFound), two_relays, []).
Proof.
  assert (H : find_relay "wss://c" (relays two_relays) = None) by reflexivity.
  split; [exact H|].
  exact (send_to_unknown_relay stub_driver "wss://c" (ClientMessage.Event stub_event)
           None stub_event None two_relays H).
Defined.

Lemma fan_out_without_accepted_role_witness :
  relays two_relays <> [] /\ matched (relays two_relays) [Read] = [] /\
  result_of (send_event stub_driver stub_event [Read] None two_relays)
  = Err (Error.EventNotPublished 1%N) /\
  channel (snd (fst (send_event stub_driver stub_event [Read] None two_relays)))
  = [RelayPoolMessage.BatchEvent [1%N]].
Proof.
  assert (H1 : relays two_relays <> []) by discriminate.
  assert (H2 : matched (relays two_relays) [Read] = []) by reflexivity.
  destruct (fan_out_without_accepted_role stub_driver stub_event [] [Read] None None
              two_relays H1 H2) as [_ [H _]].
  rewrite H. split; [exact H1|]. split; [exact H2|]. split; reflexivity.
Defined.

Lemma send_msg_non_event_no_marker_witness :
  (forall event, ClientMessage.Req "sub" [] <> ClientMessage.Event event) /\
  snd (fst (send_msg stub_driver (ClientMessage.Req "sub" []) [Write] None two_relays))
  = two_relays.
Proof.
  assert (H : forall event, ClientMessage.Req "sub" [] <> ClientMessage.Event event)
    by (intros event Heq; discriminate Heq).
  pose proof (send_msg_non_event_no_marker stub_driver (ClientMessage.Req "sub" [])
                [Write] None two_relays H) as Hc.
  destruct (send_msg stub_driver (ClientMessage.Req "sub" []) [Write] None two_relays)
    as [[r st'] tr].
  split; [exact H|]. exact (proj1 Hc).
Defined.

Lemma disconnect_stops_at_first_failure_witness :
  relays two_relays = ([("wss://a", Write)] ++ ("wss://b", Write) :: [])%list /\
  (forall u r, In (u, r) [("wss://a", Write)] -> relay_terminate stub_control u = Ok tt) /\
  relay_terminate stub_control "wss://b" = Err (Error.Relay "terminate failed") /\
  shutdown stub_control two_relays
  = (Err (Error.Relay "terminate failed"),
     [RelayCall.Terminate "wss://a"; RelayCall.Terminate "wss://b"], false).
Proof.
  assert (H1 : relays two_relays = ([("wss://a", Write)] ++ ("wss://b", Write) :: [])%list)
    by reflexivity.
  assert (H2 : forall u r, In (u, r) [("wss://a", Write)] ->
                 relay_terminate stub_control u = Ok tt).
  { intros u r [Hu | []]. injection Hu as <- <-. reflexivity. }
  assert (H3 : relay_terminate stub_control "wss://b" = Err (Error.Relay "terminate failed"))
    by reflexivity.
  split; [exact H1|]. split; [exact H2|]. split; [exact H3|].
  exact (proj2 (disconnect_stops_at_first_failure stub_control two_relays _ _ _ _ _
                  H1 H2 H3)).
Defined.

Lemma stop_after_relays_stopped_witness :
  (forall u r, In (u, r) (relays one_relay) -> relay_stop stub_control u = Ok tt) /\
  fst (fst (stop stub_control 1 one_relay)) = Ok tt /\
  channel (snd (fst (stop stub_control 1 one_relay))) = [RelayPoolMessage.Stop].
Proof.
  assert (H : forall u r, In (u, r) (relays one_relay) -> relay_stop stub_control u = Ok tt).
  { intros u r [Hu | []]. injection Hu as <- <-. reflexivity. }
  pose proof (stop_after_relays_stopped stub_control 1 one_relay H) as Hc.
  destruct (stop stub_control 1 one_relay) as [[r st'] calls].
  destruct Hc as (Hr & _ & _ & _ & Hch).
  split; [exact H|]. split; [exact Hr|]. simpl. rewrite Hch. reflexivity.
Defined.

Lemma stop_relay_failure_witness :
  relays two_relays = ([("wss://a", Write)] ++ ("wss://b", Write) :: [])%list /\
  (forall u r, In (u, r) [("wss://a", Write)] -> relay_stop stub_control u = Ok tt) /\
  relay_stop stub_control "wss://b" = Err (Error.Relay "stop failed") /\
  stop stub_control 1 two_relays
  = (Err (Error.Relay "stop failed"), two_relays,
     [RelayCall.Stop "wss://a"; RelayCall.Stop "wss://b"]).
Proof.
  assert (H1 : relays two_relays = ([("wss://a", Write)] ++ ("wss://b", Write) :: [])%list)
    by reflexivity.
  assert (H2 : forall u r, In (u, r) [("wss://a", Write)] ->
                 relay_stop stub_control u = Ok tt).
  { intros u r [Hu | []]. injection Hu as <- <-. reflexivity. }
  assert (H3 : relay_stop stub_control "wss://b" = Err (Error.Relay "stop failed"))
    by reflexivity.
  split; [exact H1|]. split; [exact H2|]. split; [exact H3|].
  exact (stop_relay_failure stub_control 1 two_relays _ _ _ _ _ H1 H2 H3).
Defined.

End ExtraWitnesses.
